(** * A shallow embedding of the retrieval pipeline of rag-system-mongodb

    The server is a single JavaScript file.  Its core is three pure
    functions and two request handlers built on them:

    - [chunkText]  (source lines 94-125): the sentence-aware chunker;
    - [cosineSimilarity] (source lines 128-137): the similarity scorer;
    - the [/query] handler (lines 219-297): ranking and the tiered answer;
    - the [/ingest] and [/load-my-data] handlers (lines 147-216, 357-460).

    JavaScript strings are sequences of UTF-16 code units and are modelled as
    lists of code units; string positions are integers ([Z], so that the [-1]
    of [lastIndexOf] and negative arguments of [slice] keep their meaning);
    similarity scores are IEEE 754 binary64 numbers and are modelled with the
    kernel's primitive floats, whose operations are the ones JavaScript's
    [Number] uses. *)

From Stdlib Require Import ZArith NArith List Bool Lia String Ascii.
From Stdlib Require Import Floats.
Import ListNotations.

Set Warnings "-inexact-float".

Local Open Scope Z_scope.

(** ** JavaScript strings *)

Module JsString.

(** One UTF-16 code unit. *)
Definition code_unit := N.

Definition js_string := list code_unit.

(** A source literal (all literals of the program are ASCII). *)
Definition lit (s : string) : js_string :=
  map N_of_ascii (list_ascii_of_string s).

Definition len (s : js_string) : Z := Z.of_nat (List.length s).

(** The characters matched by the regular-expression class [\s] and removed
    by [String.prototype.trim]: ECMAScript's WhiteSpace and LineTerminator
    code points. *)
Definition is_space (c : code_unit) : bool :=
  ((9 <=? c) && (c <=? 13) || (c =? 32) || (c =? 160) || (c =? 5760)
   || (8192 <=? c) && (c <=? 8202) || (c =? 8232) || (c =? 8233)
   || (c =? 8239) || (c =? 8287) || (c =? 12288) || (c =? 65279))%N.

Definition space : code_unit := 32%N.
Definition period : code_unit := 46%N.

(** [s.replace(/\s+/g, ' ')]: every maximal run of white space becomes one
    space.  [in_run] records that the previous unit was white space. *)
Fixpoint collapse (in_run : bool) (s : js_string) : js_string :=
  match s with
  | [] => []
  | c :: t =>
      if is_space c
      then (if in_run then collapse true t else space :: collapse true t)
      else c :: collapse false t
  end.

Definition replace_ws (s : js_string) : js_string := collapse false s.

Fixpoint drop_space (s : js_string) : js_string :=
  match s with
  | [] => []
  | c :: t => if is_space c then drop_space t else s
  end.

(** [s.trim()] *)
Definition trim (s : js_string) : js_string :=
  rev (drop_space (rev (drop_space s))).

(** An index argument of [slice]: negative counts from the end, and the
    result is clamped to [0, len]. *)
Definition slice_index (n k : Z) : Z :=
  if k <? 0 then Z.max (n + k) 0 else Z.min k n.

(** [s.slice(a, b)] *)
Definition slice (s : js_string) (a b : Z) : js_string :=
  let from := slice_index (len s) a in
  let to := slice_index (len s) b in
  firstn (Z.to_nat (to - from)) (skipn (Z.to_nat from) s).

Definition unit_at (s : js_string) (k : nat) (c : code_unit) : bool :=
  match nth_error s k with
  | Some x => N.eqb x c
  | None => false
  end.

(** The backward scan of [lastIndexOf]: positions [k], [k-1], ..., [0]. *)
Fixpoint search_back (c : code_unit) (s : js_string) (k : nat) : Z :=
  if unit_at s k c then Z.of_nat k
  else match k with
       | O => -1
       | S k' => search_back c s k'
       end.

(** [s.lastIndexOf(c, pos)] for a one-unit search string: the scan starts
    at [pos] clamped to [0, len - 1] (the position itself is included) and
    the answer is [-1] when nothing is found. *)
Definition lastIndexOf (s : js_string) (c : code_unit) (pos : Z) : Z :=
  let start := Z.min (Z.max pos 0) (len s - 1) in
  if start <? 0 then -1 else search_back c s (Z.to_nat start).

End JsString.

Import JsString.

(** ** The chunker (source lines 94-125) *)

(** The default of the parameter [chunkSize]. *)
Definition default_chunkSize : Z := 400.

(** The test [sentenceEnd > start + chunkSize * 0.6] of line 111.  All three
    quantities are integers; the product with the binary64 constant nearest
    to 0.6 differs from three fifths of [chunkSize] by far less than one
    fifth, so against the integer [sentenceEnd] the comparison has the
    outcome of the exact one, which is what is written here.
    ([threshold_default_exact] checks the product for the default chunk
    size, [past_threshold_checked] the whole test for the sizes up to it.) *)
Definition past_threshold (chunkSize start sentenceEnd : Z) : bool :=
  3 * chunkSize <? 5 * (sentenceEnd - start).

(** Lines 106-114: the end of the chunk that starts at [start]. *)
Definition chunk_end (cleanText : js_string) (chunkSize start : Z) : Z :=
  let end_ := start + chunkSize in
  if end_ <? len cleanText then
    let sentenceEnd := lastIndexOf cleanText period end_ in
    if past_threshold chunkSize start sentenceEnd
    then sentenceEnd + 1
    else end_
  else end_.

(** Lines 116-119: the trimmed chunk is kept when it is not empty. *)
Definition push_chunk (chunks : list js_string) (chunk : js_string)
  : list js_string :=
  if 0 <? len chunk then chunks ++ [chunk] else chunks.

(** Lines 105-122, the [while] loop.  [fuel] bounds the number of
    iterations; [None] means the bound was reached with the loop still
    running. *)
Fixpoint chunk_loop (fuel : nat) (cleanText : js_string) (chunkSize start : Z)
  (chunks : list js_string) : option (list js_string) :=
  if start <? len cleanText then
    match fuel with
    | O => None
    | S fuel' =>
        let end_ := chunk_end cleanText chunkSize start in
        let chunk := trim (slice cleanText start end_) in
        chunk_loop fuel' cleanText chunkSize end_ (push_chunk chunks chunk)
    end
  else Some chunks.

(** [chunkText(text, chunkSize)] for a string argument.  The loop is given
    one iteration per code unit of the cleaned text, which is all it needs
    when [chunkSize >= 1] (see [chunk_loop_enough_fuel]). *)
Definition chunkText (text : js_string) (chunkSize : Z)
  : option (list js_string) :=
  match text with
  | [] => Some []
  | _ =>
      let cleanText := trim (replace_ws text) in
      if len cleanText <=? chunkSize then Some [cleanText]
      else chunk_loop (List.length cleanText) cleanText chunkSize 0 []
  end.

(** ** The similarity scorer (source lines 128-137) *)

Local Open Scope float_scope.

(** An embedding: a JavaScript array of numbers. *)
Definition vector := list float.

(** [vecB[i]] inside a product: an index past the end reads [undefined],
    which the multiplication turns into [NaN]. *)
Definition at_index (v : vector) (i : nat) : float := nth i v nan.

(** [vecA.reduce((sum, val, i) => sum + val * vecB[i], 0)], from index [i]
    with accumulator [sum]. *)
Fixpoint reduce_dot (vecA vecB : vector) (i : nat) (sum : float) : float :=
  match vecA with
  | [] => sum
  | val :: rest => reduce_dot rest vecB (S i) (sum + val * at_index vecB i)
  end.

Definition dotProduct (vecA vecB : vector) : float := reduce_dot vecA vecB 0 0.

(** The sum of the products of paired components, in index order, added to
    [sum]: what the reduction computes when no read leaves [vecB]. *)
Definition pair_sum (pairs : list (float * float)) (sum : float) : float :=
  fold_left (fun acc p => acc + fst p * snd p) pairs sum.

(** [v.reduce((sum, val) => sum + val * val, 0)] *)
Definition sum_squares (v : vector) : float :=
  fold_left (fun sum val => sum + val * val) v 0.

(** [Math.sqrt] of the sum of squares: the Euclidean norm as computed. *)
Definition magnitude (v : vector) : float := sqrt (sum_squares v).

(** [cosineSimilarity(vecA, vecB)].  [None] is an argument that is [null] or
    [undefined]; an empty array is a present argument. *)
Definition cosineSimilarity (vecA vecB : option vector) : float :=
  match vecA, vecB with
  | Some a, Some b =>
      if negb (Nat.eqb (List.length a) (List.length b)) then 0
      else
        let magnitudeA := magnitude a in
        let magnitudeB := magnitude b in
        if (magnitudeA =? 0) || (magnitudeB =? 0) then 0
        else dotProduct a b / (magnitudeA * magnitudeB)
  | _, _ => 0
  end.

(** ** [Math.round] *)

(** The number for an integer of absolute value below [2^63]. *)
Definition float_of_Z (n : Z) : float :=
  if (n <? 0)%Z then - of_uint63 (Uint63.of_Z (- n))
  else of_uint63 (Uint63.of_Z n).

(** [Math.round(x)]: the integer nearest to [x], a tie going towards
    [+Infinity]; [NaN], the infinities and the zeros are returned unchanged,
    and so is a number with no fractional bits.  Otherwise [x] is
    [(+/-) m * 2^e] with [e < 0] and the result is the floor of [x + 1/2],
    computed exactly; a zero result keeps the sign of [x]. *)
Definition Math_round (x : float) : float :=
  match Prim2SF x with
  | S754_finite s m e =>
      if (0 <=? e)%Z then x
      else
        let n := ((2 * cond_Zopp s (Zpos m) + 2 ^ (- e)) / 2 ^ (1 - e))%Z in
        if (n =? 0)%Z then (if s then neg_zero else zero) else float_of_Z n
  | _ => x
  end.

(** ** The threshold test of the chunker in binary64 *)

(** The test of line 111 as JavaScript evaluates it, on numbers. *)
Definition past_threshold_binary64 (chunkSize start sentenceEnd : Z) : bool :=
  float_of_Z start + float_of_Z chunkSize * 0.6 <? float_of_Z sentenceEnd.

(** Every chunk size up to [sizes], every start in [starts] and every
    position of [sentenceEnd] from [start] to [start + chunkSize], and the
    position [-1]: the two tests agree. *)
Definition thresholds_agree (sizes : nat) (starts : list Z) : bool :=
  forallb (fun n =>
    forallb (fun start =>
      forallb (fun k =>
        let chunkSize := Z.of_nat n in
        let sentenceEnd := (start + Z.of_nat k)%Z in
        Bool.eqb (past_threshold chunkSize start sentenceEnd)
                 (past_threshold_binary64 chunkSize start sentenceEnd)
        && Bool.eqb (past_threshold chunkSize start (-1))
                    (past_threshold_binary64 chunkSize start (-1)))
        (seq 0 (S n)))
      starts)
    (seq 1 sizes).

(** ** The document store *)

(** The [metadata] sub-document of a stored chunk.  [totalChunks] is [None]
    when the field is not written. *)
Record Metadata := {
  title : js_string;
  category : js_string;
  totalChunks : option Z
}.

(** One record of the collection [documents]. *)
Record Chunk := {
  docId : js_string;
  chunkIndex : Z;
  text : js_string;
  embedding : option vector;
  metadata : Metadata;
  createdAt : Z
}.

(** The collection, in insertion (scan) order. *)
Definition store := list Chunk.

Definition str_eqb (a b : js_string) : bool :=
  if list_eq_dec N.eq_dec a b then true else false.

(** [collection.deleteMany({ docId })] *)
Definition deleteMany (id : js_string) (st : store) : store :=
  filter (fun c => negb (str_eqb (docId c) id)) st.

(** [collection.insertMany(documents)] *)
Definition insertMany (documents : list Chunk) (st : store) : store :=
  st ++ documents.

(** The chunks of one document. *)
Definition chunks_of (id : js_string) (st : store) : list Chunk :=
  filter (fun c => str_eqb (docId c) id) st.

(** ** The outside world of a request *)

Inductive mongo_call := Connect | DeleteMany | InsertMany | Find.

(** What a handler cannot decide itself: the embedding provider's reply to a
    batch ([None] when [getEmbeddings] throws), which database calls throw,
    and the clock read by [new Date()]. *)
Record World := {
  getEmbeddings : list js_string -> option (list vector);
  throws : mongo_call -> bool;
  now : Z
}.

(** The JSON replies of the handlers. *)
Inductive response :=
| IngestOk (id : js_string) (chunks : Z)
| QueryOk (answer : js_string) (confidence : float)
| LoadOk (documents_added chunks_created : Z)
| BadRequest (error : js_string)
| ServerError.

(** The field [success] of a reply. *)
Definition success (r : response) : bool :=
  match r with
  | IngestOk _ _ | QueryOk _ _ | LoadOk _ _ => true
  | BadRequest _ | ServerError => false
  end.

(** Array [map] with the index as second argument. *)
Fixpoint map_index {A B : Type} (f : A -> nat -> B) (l : list A) (i : nat)
  : list B :=
  match l with
  | [] => []
  | x :: t => f x i :: map_index f t (S i)
  end.

(** [x || d] for an optional string field: [undefined] and the empty string
    are falsy. *)
Definition or_default (x : option js_string) (d : js_string) : js_string :=
  match x with
  | Some (c :: s) => c :: s
  | _ => d
  end.

(** ** The [/ingest] handler (source lines 147-216) *)

(** The optional [metadata] of the request body. *)
Record IngestMetadata := {
  req_title : option js_string;
  req_category : option js_string
}.

(** Lines 182-193. *)
Definition ingest_documents (w : World) (id : js_string) (md : IngestMetadata)
  (chunks : list js_string) (embeddings : list vector) : list Chunk :=
  map_index (fun chunk idx =>
    {| docId := id;
       chunkIndex := Z.of_nat idx;
       text := chunk;
       embedding := nth_error embeddings idx;
       metadata := {| title := or_default (req_title md) id;
                      category := or_default (req_category md) (lit "general");
                      totalChunks := Some (Z.of_nat (List.length chunks)) |};
       createdAt := now w |}) chunks 0.

(** The reply and the store after the request; [None] only if the chunker
    does not return. *)
Definition ingest (w : World) (id text_ : js_string) (md : IngestMetadata)
  (st : store) : option (response * store) :=
  match id, text_ with
  | [], _ | _, [] =>
      Some (BadRequest (lit "Document ID and text are required"), st)
  | _, _ =>
      match chunkText text_ default_chunkSize with
      | None => None
      | Some [] => Some (BadRequest (lit "No valid text found"), st)
      | Some chunks =>
          match getEmbeddings w chunks with
          | None => Some (ServerError, st)
          | Some embeddings =>
              if throws w Connect then Some (ServerError, st)
              else if throws w DeleteMany then Some (ServerError, st)
              else
                let st1 := deleteMany id st in
                let documents := ingest_documents w id md chunks embeddings in
                if throws w InsertMany then Some (ServerError, st1)
                else Some (IngestOk id (Z.of_nat (List.length chunks)),
                           insertMany documents st1)
          end
      end
  end.

(** ** The [/query] handler (source lines 219-297) *)

(** Line 246, the reply over an empty collection. *)
Definition no_documents_answer : js_string :=
  lit "I don't have any information in my database yet. Please add some documents first.".

(** Line 264, the default answer. *)
Definition refusal_answer : js_string :=
  lit "I'm sorry, but I don't have information about that in my knowledge base. Please ask me something about the documents you've provided.".

(** Line 276, the prefix of the medium tier. *)
Definition hedge_prefix : js_string := lit "Based on my knowledge: ".

Definition high_threshold : float := 0.7.
Definition medium_threshold : float := 0.6.

(** A stored chunk with its score (lines 252-255). *)
Record ScoredDoc := { doc : Chunk; score : float }.

(** [doc.embedding || []] *)
Definition embedding_or_empty (c : Chunk) : option vector :=
  match embedding c with
  | Some v => Some v
  | None => Some []
  end.

Definition score_doc (queryEmbedding : option vector) (c : Chunk) : ScoredDoc :=
  {| doc := c;
     score := cosineSimilarity queryEmbedding (embedding_or_empty c) |}.

(** The comparator of line 258: [(a, b) => b.score - a.score]. *)
Definition by_score (a b : ScoredDoc) : float := score b - score a.

(** [Array.prototype.sort] is stable: [x], which stood before every element
    of [sorted], moves behind [y] only when the comparator is positive on
    [(x, y)]. *)
Fixpoint insert_sorted {A : Type} (comparefn : A -> A -> float) (x : A)
  (sorted : list A) : list A :=
  match sorted with
  | [] => [x]
  | y :: rest =>
      if 0 <? comparefn x y then y :: insert_sorted comparefn x rest
      else x :: sorted
  end.

Definition sort {A : Type} (comparefn : A -> A -> float) (l : list A) : list A :=
  fold_right (insert_sorted comparefn) [] l.

(** Lines 264-277: the answer and the raw confidence chosen from
    [topDocs]. *)
Definition select_answer (topDocs : list ScoredDoc) : js_string * float :=
  match topDocs with
  | bestMatch :: _ =>
      if high_threshold <? score bestMatch
      then (text (doc bestMatch), score bestMatch)
      else if medium_threshold <? score bestMatch
      then (hedge_prefix ++ text (doc bestMatch), score bestMatch)
      else (refusal_answer, 0)
  | [] => (refusal_answer, 0)
  end.

(** Lines 243-284: from the query embedding and the scanned collection to the
    reply. *)
Definition rank_and_answer (queryEmbedding : option vector) (allDocs : store)
  : response :=
  match allDocs with
  | [] => QueryOk no_documents_answer 0
  | _ =>
      let scoredDocs := map (score_doc queryEmbedding) allDocs in
      let topDocs := firstn 3 (sort by_score scoredDocs) in
      let (answer, confidence) := select_answer topDocs in
      QueryOk answer (Math_round (confidence * 100))
  end.

(** The handler.  [const [queryEmbedding] = ...] takes the first vector of the
    provider's reply, [undefined] if there is none. *)
Definition query (w : World) (q : js_string) (st : store) : response :=
  match q with
  | [] => BadRequest (lit "Question is required")
  | _ =>
      match getEmbeddings w [q] with
      | None => ServerError
      | Some embeddings =>
          if throws w Connect then ServerError
          else if throws w Find then ServerError
          else rank_and_answer (hd_error embeddings) st
      end
  end.

(** ** The [/load-my-data] handler (source lines 357-460) *)

Record SeedDoc := {
  seed_docId : js_string;
  seed_text : js_string;
  seed_title : js_string;
  seed_category : js_string
}.

Definition seed (id txt ttl cat : string) : SeedDoc :=
  {| seed_docId := lit id; seed_text := lit txt;
     seed_title := lit ttl; seed_category := lit cat |}.

(** Lines 360-411. *)
Definition myData : list SeedDoc :=
  [ seed "csec-lab-1" "csec-lab is good environment"
         "CSEC Lab Environment" "academic";
    seed "csec-lab-2" "csec-lab contains around 400 students"
         "CSEC Lab Student Count" "academic";
    seed "csec-astu-1" "csec-astu has 4 division"
         "CSEC ASTU Divisions" "academic";
    seed "csec-dev-1" "csec-dev has around 50 members"
         "CSEC Dev Members" "academic";
    seed "general-1" "sky is blue" "General Fact" "general";
    seed "personal-1" "abebe eats beso" "Personal Habit" "personal";
    seed "location-1" "astu is found in adama" "ASTU Location" "location";
    seed "location-2" "adama is a beautiful city" "Adama City" "location";
    seed "location-3" "addis abeba is different from adama"
         "City Comparison" "location";
    seed "csec-lab-3" "csec-lab has been created since 2023"
         "CSEC Lab Creation" "academic" ].

(** Lines 429-436: [metadata] is the seed's own object, which has a title and
    a category and nothing else. *)
Definition load_documents (w : World) (d : SeedDoc) (chunks : list js_string)
  (embeddings : list vector) : list Chunk :=
  map_index (fun chunk idx =>
    {| docId := seed_docId d;
       chunkIndex := Z.of_nat idx;
       text := chunk;
       embedding := nth_error embeddings idx;
       metadata := {| title := seed_title d;
                      category := seed_category d;
                      totalChunks := None |};
       createdAt := now w |}) chunks 0.

(** Lines 423-440, the [for] loop over the remaining seeds. *)
Fixpoint load_loop (w : World) (docs : list SeedDoc) (st : store)
  (total : Z) : option (response * store) :=
  match docs with
  | [] => Some (LoadOk (Z.of_nat (List.length myData)) total, st)
  | d :: rest =>
      match chunkText (seed_text d) default_chunkSize with
      | None => None
      | Some [] => load_loop w rest st total
      | Some chunks =>
          match getEmbeddings w chunks with
          | None => Some (ServerError, st)
          | Some embeddings =>
              if throws w InsertMany then Some (ServerError, st)
              else load_loop w rest
                     (insertMany (load_documents w d chunks embeddings) st)
                     (total + Z.of_nat (List.length chunks))%Z
          end
      end
  end.

Definition load_my_data (w : World) (st : store) : option (response * store) :=
  if throws w Connect then Some (ServerError, st)
  else if throws w DeleteMany then Some (ServerError, st)
  else load_loop w myData [] 0%Z.

(** ** The data-model invariant of a document's chunks *)

(** The chunk indices of the records of [id], in store order. *)
Definition indices_of (id : js_string) (st : store) : list Z :=
  map chunkIndex (chunks_of id st).

(** For the records of [id]: the indices are [0, 1, ..., n-1] for some
    [n >= 1], and every record carries [totalChunks = n]. *)
Definition document_invariant (id : js_string) (st : store) : Prop :=
  exists n : nat,
    (1 <= n)%nat /\
    indices_of id st = map Z.of_nat (seq 0 n) /\
    forall c, In c (chunks_of id st) ->
              totalChunks (metadata c) = Some (Z.of_nat n).

(** ** Numbers read off their bits *)


(** The value of a number as an integer multiple of [2^-1074]; the
    infinities get a magnitude beyond that of every finite number. *)
Definition scaled (x : spec_float) : Z :=
  match x with
  | S754_zero _ | S754_nan => 0%Z
  | S754_infinity sg => cond_Zopp sg (2 ^ 2200)%Z
  | S754_finite sg m e => cond_Zopp sg (Z.pos m * 2 ^ (e + 1074))%Z
  end.

Definition is_number (x : spec_float) : bool :=
  match x with
  | S754_nan => false
  | _ => true
  end.

(** The result of a rounding that may overflow. *)
Definition finite_or_overflow (sx : bool) (q : positive) (e : Z) : spec_float :=
  if (e <=? emax - prec)%Z then S754_finite sx q e else S754_infinity sx.

(** ** Sample inputs *)

(** A world in which nothing fails and every text gets the embedding [v]. *)
Definition calm_world (v : vector) : World :=
  {| getEmbeddings := fun texts => Some (map (fun _ => v) texts);
     throws := fun _ => false;
     now := 0%Z |}.

(** A text of 441 units with its only period at offset 240: 240 letters, the
    period, 200 letters. *)
Definition period_at_240 : js_string :=
  repeat 97%N 240 ++ period :: repeat 98%N 200.

(** A text of 405 units with its only period at offset 400. *)
Definition period_at_400 : js_string :=
  repeat 97%N 400 ++ period :: lit "bbbb".

(** A stored chunk with the given text and embedding. *)
Definition sample_chunk (id txt : string) (v : option vector) : Chunk :=
  {| docId := lit id; chunkIndex := 0%Z; text := lit txt; embedding := v;
     metadata := {| title := lit id; category := lit "general";
                    totalChunks := Some 1%Z |};
     createdAt := 0%Z |}.

(** A request body without [metadata]. *)
Definition no_metadata : IngestMetadata :=
  {| req_title := None; req_category := None |}.

Definition store_after (r : option (response * store)) : store :=
  match r with
  | Some (_, st) => st
  | None => []
  end.

(** The collection after document [d1] was ingested with a two-chunk text,
    and after it was ingested again with a one-chunk text. *)
Definition first_version : store :=
  store_after (ingest (calm_world [1]) (lit "d1") period_at_240
                 no_metadata []).

Definition second_version : store :=
  store_after (ingest (calm_world [1]) (lit "d1") (lit "The sky is blue.")
                 no_metadata first_version).


(** ** Notions used to state further properties of the chunker *)

(** The units of a string that are not white space, in order. *)
Definition solid (s : js_string) : js_string :=
  filter (fun c => negb (is_space c)) s.

Definition starts_with_space (s : js_string) : bool :=
  match s with
  | c :: _ => is_space c
  | [] => false
  end.

(** Every white-space unit is the space character and is not followed by
    white space. *)
Fixpoint single_spaced (s : js_string) : bool :=
  match s with
  | [] => true
  | c :: t =>
      (if is_space c then N.eqb c space && negb (starts_with_space t)
       else true)
      && single_spaced t
  end.

(** ** The counting, clearing and health handlers (source lines 36-59 and
    300-354) *)

(** [collection.countDocuments()] *)
Definition countDocuments (st : store) : Z := Z.of_nat (List.length st).

(** The database calls of these handlers that [mongo_call] does not list:
    [true] when the call throws. *)
Record Probes := {
  ping_throws : bool;
  count_throws : bool
}.

(** Their replies: the count, the number of deleted records, the health
    report with its count, its failure, and the error reply of the other
    two. *)
Inductive admin_response :=
| CountOk (count : Z)
| ClearedOk (deletedCount : Z)
| Healthy (documents_in_db : Z)
| Unhealthy
| AdminError.

(** [GET /documents] (lines 300-326). *)
Definition get_documents (w : World) (p : Probes) (st : store)
  : admin_response :=
  if throws w Connect then AdminError
  else if count_throws p then AdminError
  else CountOk (countDocuments st).

(** [DELETE /documents] (lines 329-354): [deleteMany({})] removes every
    record. *)
Definition delete_documents (w : World) (st : store)
  : admin_response * store :=
  if throws w Connect then (AdminError, st)
  else if throws w DeleteMany then (AdminError, st)
  else (ClearedOk (countDocuments st), []).

(** [GET /health] (lines 36-59): connect, ping, count. *)
Definition health (w : World) (p : Probes) (st : store) : admin_response :=
  if throws w Connect then Unhealthy
  else if ping_throws p then Unhealthy
  else if count_throws p then Unhealthy
  else Healthy (countDocuments st).

(** The identifiers of the seed documents of [/load-my-data]. *)
Definition seed_ids : list js_string := map seed_docId myData.

(** Two records with the same text and the same embedding, and two scored
    records with the same text and the same score. *)
Definition same_view (a b : Chunk) : Prop :=
  text a = text b /\ embedding a = embedding b.

Definition same_scored (a b : ScoredDoc) : Prop :=
  text (doc a) = text (doc b) /\ score a = score b.

(** ** More sample inputs *)

Definition two_sentences : js_string :=
  lit "The sky is blue. Adama is a city.".


(** A world in which the embedding provider fails. *)
Definition world_without_provider : World :=
  {| getEmbeddings := fun _ => None;
     throws := fun _ => false;
     now := 0%Z |}.

(** Three chunks, the last two with the same direction, and a query in that
    direction. *)
Definition chunk_a : Chunk := sample_chunk "a" "off axis" (Some [0; 1]).
Definition chunk_b : Chunk := sample_chunk "b" "on axis, first" (Some [1; 0]).
Definition chunk_c : Chunk := sample_chunk "c" "on axis, second" (Some [2; 0]).

Definition tied_chunks : store := [chunk_a; chunk_b; chunk_c].

Definition on_axis_query : option vector := Some [1; 0].

(** The records of [st] with every field but the text and the embedding
    replaced. *)
Definition relabelled (st : store) : store :=
  map (fun c =>
         {| docId := lit "elsewhere"; chunkIndex := 7%Z; text := text c;
            embedding := embedding c;
            metadata := {| title := []; category := [];
                           totalChunks := None |};
            createdAt := 99%Z |}) st.

(** * Properties *)

Local Open Scope Z_scope.

(** ** Strings *)

Section StringFacts.

Variable s : js_string.
Variable c : code_unit.

Lemma unit_at_past_end (k : nat) :
  (List.length s <= k)%nat -> unit_at s k c = false.
Proof.
  intros Hk. unfold unit_at.
  apply nth_error_None in Hk. rewrite Hk. reflexivity.
Qed.

Lemma unit_at_in_range (k : nat) :
  unit_at s k c = true -> (k < List.length s)%nat.
Proof.
  intros H.
  destruct (Nat.lt_ge_cases k (List.length s)) as [|Hge]; [assumption|].
  rewrite (unit_at_past_end k Hge) in H. discriminate.
Qed.

(** The backward scan returns the greatest matching position not above
    its starting point, or [-1]. *)
Lemma search_back_spec (k : nat) :
  let r := search_back c s k in
  (r = -1 /\ forall j, (j <= k)%nat -> unit_at s j c = false) \/
  (0 <= r <= Z.of_nat k /\ unit_at s (Z.to_nat r) c = true /\
   forall j, (Z.to_nat r < j <= k)%nat -> unit_at s j c = false).
Proof.
  induction k as [|k IH]; cbn [search_back].
  - destruct (unit_at s 0 c) eqn:E.
    + right. split; [lia|]. split; [assumption|]. intros j Hj. lia.
    + left. split; [reflexivity|]. intros j Hj.
      replace j with 0%nat by lia. assumption.
  - destruct (unit_at s (S k) c) eqn:E.
    + right. rewrite Nat2Z.id.
      split; [lia|]. split; [assumption|]. intros j Hj. lia.
    + destruct IH as [[Hr Hnone] | [Hr [Hat Hnone]]].
      * left. split; [assumption|]. intros j Hj.
        destruct (Nat.eq_dec j (S k)) as [->|]; [assumption|].
        apply Hnone. lia.
      * right. split; [lia|]. split; [assumption|]. intros j Hj.
        destruct (Nat.eq_dec j (S k)) as [->|]; [assumption|].
        apply Hnone. lia.
Qed.

(** [lastIndexOf]: the nearest match at or before [pos], when [pos] is not
    negative. *)
Lemma lastIndexOf_spec (pos : Z) :
  0 <= pos ->
  let r := lastIndexOf s c pos in
  (r = -1 /\ forall j, (Z.of_nat j <= pos) -> unit_at s j c = false) \/
  (0 <= r <= pos /\ r < len s /\ unit_at s (Z.to_nat r) c = true /\
   forall j, (r < Z.of_nat j <= pos) -> unit_at s j c = false).
Proof.
  intros Hpos. unfold lastIndexOf, len. cbv zeta.
  rewrite (Z.max_l pos 0) by lia.
  destruct (Z.min pos (Z.of_nat (List.length s) - 1) <? 0) eqn:Hneg.
  - apply Z.ltb_lt in Hneg. left. split; [reflexivity|].
    intros j _. apply unit_at_past_end. lia.
  - apply Z.ltb_ge in Hneg.
    set (st := Z.to_nat (Z.min pos (Z.of_nat (List.length s) - 1))).
    assert (Hst : Z.of_nat st = Z.min pos (Z.of_nat (List.length s) - 1))
      by (unfold st; lia).
    destruct (search_back_spec st) as [[Hr Hnone] | [Hr [Hat Hnone]]].
    + left. split; [assumption|]. intros j Hj.
      destruct (Nat.le_gt_cases j st) as [Hle|Hgt]; [apply Hnone; lia|].
      apply unit_at_past_end. lia.
    + right. split; [lia|]. split; [lia|]. split; [assumption|].
      intros j Hj.
      destruct (Nat.le_gt_cases j st) as [Hle|Hgt]; [apply Hnone; lia|].
      apply unit_at_past_end. lia.
Qed.

(** Whatever [pos] is, the answer is at least [-1] and at most the larger
    of [pos] and [0]. *)
Lemma lastIndexOf_bounds (pos : Z) :
  -1 <= lastIndexOf s c pos <= Z.max pos 0.
Proof.
  unfold lastIndexOf. cbv zeta.
  destruct (Z.min (Z.max pos 0) (len s - 1) <? 0) eqn:Hneg; [lia|].
  apply Z.ltb_ge in Hneg.
  pose proof (search_back_spec
                (Z.to_nat (Z.min (Z.max pos 0) (len s - 1)))) as H.
  cbv zeta in H. destruct H as [[Hr _] | [Hr _]]; lia.
Qed.

End StringFacts.

(** ** The chunker *)

Section ChunkerFacts.

Variable cleanText : js_string.
Variable chunkSize : Z.

(** With a positive chunk size the end of a chunk lies strictly after its
    start: a period is accepted only past the start, and the raw boundary
    is [chunkSize] further on. *)
Lemma chunk_end_advances (start : Z) :
  1 <= chunkSize -> start < chunk_end cleanText chunkSize start.
Proof.
  intros Hsize. unfold chunk_end, past_threshold. cbv zeta.
  destruct (start + chunkSize <? len cleanText); [|lia].
  destruct (3 * chunkSize <? 5 * (lastIndexOf cleanText period
                                    (start + chunkSize) - start)) eqn:E;
    [|lia].
  apply Z.ltb_lt in E. lia.
Qed.

(** A loop that starts at [start] is done after at most [len - start]
    iterations. *)
Lemma chunk_loop_enough_fuel (fuel : nat) :
  1 <= chunkSize ->
  forall start chunks,
    len cleanText - start <= Z.of_nat fuel ->
    exists result,
      chunk_loop fuel cleanText chunkSize start chunks = Some result.
Proof.
  intros Hsize. induction fuel as [|fuel IH]; intros start chunks Hfuel.
  - cbn [chunk_loop].
    destruct (start <? len cleanText) eqn:E.
    + apply Z.ltb_lt in E. lia.
    + eexists. reflexivity.
  - cbn [chunk_loop].
    destruct (start <? len cleanText) eqn:E.
    + apply IH.
      pose proof (chunk_end_advances start Hsize). lia.
    + eexists. reflexivity.
Qed.

(** Iterations beyond the ones the loop needs change nothing. *)
Lemma chunk_loop_more_fuel (fuel : nat) :
  forall start chunks result,
    chunk_loop fuel cleanText chunkSize start chunks = Some result ->
    forall fuel', (fuel <= fuel')%nat ->
      chunk_loop fuel' cleanText chunkSize start chunks = Some result.
Proof.
  induction fuel as [|fuel IH]; intros start chunks result Hrun fuel' Hle.
  - cbn [chunk_loop] in Hrun.
    destruct (start <? len cleanText) eqn:E; [discriminate|].
    destruct fuel'; cbn [chunk_loop]; rewrite E; assumption.
  - destruct fuel' as [|fuel']; [lia|].
    cbn [chunk_loop] in *.
    destruct (start <? len cleanText); [|assumption].
    apply IH; [assumption | lia].
Qed.

End ChunkerFacts.

(** With [chunkSize = 0] the scan position never moves: the loop does not
    end on a text it has not already consumed. *)
Lemma chunk_loop_zero_size_runs_forever (cleanText : js_string) (fuel : nat) :
  forall start chunks,
    0 <= start < len cleanText ->
    chunk_loop fuel cleanText 0 start chunks = None.
Proof.
  induction fuel as [|fuel IH]; intros start chunks Hstart; cbn [chunk_loop];
    destruct (start <? len cleanText) eqn:E;
    try (apply Z.ltb_ge in E; lia); [reflexivity|].
  assert (Hend : chunk_end cleanText 0 start = start).
  { unfold chunk_end, past_threshold. cbv zeta.
    rewrite Z.add_0_r, E.
    pose proof (lastIndexOf_bounds cleanText period start) as Hb.
    destruct (3 * 0 <? 5 * (lastIndexOf cleanText period start - start)) eqn:T;
      [apply Z.ltb_lt in T; lia | reflexivity]. }
  rewrite Hend. apply IH. assumption.
Qed.

(** The chunker on small inputs. *)
Example chunkText_normalizes :
  chunkText (lit "  hello   world. ") default_chunkSize
  = Some [lit "hello world."].
Proof. vm_compute. reflexivity. Qed.

Example chunkText_empty_string : chunkText [] default_chunkSize = Some [].
Proof. reflexivity. Qed.

Example chunkText_white_space_only :
  chunkText (lit "   ") default_chunkSize = Some [[]].
Proof. vm_compute. reflexivity. Qed.

Example chunkText_sentences :
  chunkText (lit "The sky is blue. Adama is a city.") 20
  = Some [lit "The sky is blue."; lit "Adama is a city."].
Proof. vm_compute. reflexivity. Qed.

(** C10: for every text and every [chunkSize >= 1], each iteration of the
    loop moves the scan position strictly forward (the cut lies strictly
    after the chunk start), and [chunkText] returns: the iterations it is
    given are enough, and more of them give the same chunks. *)
Theorem chunkText_terminates (text_ : js_string) (chunkSize : Z) :
  1 <= chunkSize ->
  (forall cleanText start, start < chunk_end cleanText chunkSize start) /\
  (exists chunks,
      chunkText text_ chunkSize = Some chunks /\
      forall fuel,
        (List.length (trim (replace_ws text_)) <= fuel)%nat ->
        chunkSize < len (trim (replace_ws text_)) ->
        chunk_loop fuel (trim (replace_ws text_)) chunkSize 0 [] = Some chunks).
Proof.
  intros Hsize. split.
  - intros cleanText start. apply chunk_end_advances. assumption.
  - unfold chunkText. destruct text_ as [|c rest].
    + exists []. split; [reflexivity|]. intros fuel _ Hlong.
      cbn in Hlong. lia.
    + set (cleanText := trim (replace_ws (c :: rest))).
      destruct (len cleanText <=? chunkSize) eqn:E.
      * exists [cleanText]. split; [reflexivity|]. intros fuel _ Hlong.
        apply Z.leb_le in E. lia.
      * destruct (chunk_loop_enough_fuel cleanText chunkSize
                    (List.length cleanText) Hsize 0 [])
          as [chunks Hrun]; [unfold len; lia|].
        exists chunks. split; [assumption|]. intros fuel Hfuel _.
        apply (chunk_loop_more_fuel _ _ _ _ _ _ Hrun). assumption.
Qed.

(** An instance: a two-sentence text cut into chunks of at most ten units. *)
Lemma chunkText_terminates_witness :
  (forall cleanText start, start < chunk_end cleanText 10 start) /\
  (exists chunks,
      chunkText (lit "The sky is blue. Adama is a city.") 10 = Some chunks /\
      forall fuel,
        (List.length (trim (replace_ws
           (lit "The sky is blue. Adama is a city."))) <= fuel)%nat ->
        10 < len (trim (replace_ws
           (lit "The sky is blue. Adama is a city."))) ->
        chunk_loop fuel
          (trim (replace_ws (lit "The sky is blue. Adama is a city.")))
          10 0 [] = Some chunks).
Proof.
  apply (chunkText_terminates (lit "The sky is blue. Adama is a city.") 10).
  lia.
Defined.

(** C3, as the code has it: when the proposed boundary [start + chunkSize]
    lies strictly before the end of the text, [sentenceEnd] is the nearest
    period at or before the boundary ([-1] if there is none), and the cut is
    taken just after it exactly when its offset from the chunk start is
    strictly greater than 0.6 x [chunkSize]; otherwise, an offset equal to
    0.6 x [chunkSize] included, the cut is the raw boundary. *)
Theorem chunk_end_period_rule (cleanText : js_string) (chunkSize start : Z) :
  0 <= start + chunkSize ->
  start + chunkSize < len cleanText ->
  let boundary := start + chunkSize in
  let sentenceEnd := lastIndexOf cleanText period boundary in
  ((sentenceEnd = -1 /\
    forall j, Z.of_nat j <= boundary -> unit_at cleanText j period = false) \/
   (0 <= sentenceEnd <= boundary /\
    unit_at cleanText (Z.to_nat sentenceEnd) period = true /\
    forall j, sentenceEnd < Z.of_nat j <= boundary ->
              unit_at cleanText j period = false)) /\
  (3 * chunkSize < 5 * (sentenceEnd - start) ->
   chunk_end cleanText chunkSize start = sentenceEnd + 1) /\
  (5 * (sentenceEnd - start) <= 3 * chunkSize ->
   chunk_end cleanText chunkSize start = boundary).
Proof.
  intros Hnonneg Hinside boundary sentenceEnd.
  split; [|split].
  - destruct (lastIndexOf_spec cleanText period boundary Hnonneg)
      as [[Hr Hnone] | [Hr [_ [Hat Hnone]]]].
    + left. split; assumption.
    + right. split; [assumption|]. split; assumption.
  - intros Hover. subst sentenceEnd boundary.
    unfold chunk_end, past_threshold. cbv zeta.
    apply Z.ltb_lt in Hinside. rewrite Hinside.
    apply Z.ltb_lt in Hover. rewrite Hover. reflexivity.
  - intros Hunder. subst sentenceEnd boundary.
    unfold chunk_end, past_threshold. cbv zeta.
    apply Z.ltb_lt in Hinside. rewrite Hinside.
    apply Z.ltb_ge in Hunder. rewrite Hunder. reflexivity.
Qed.

Lemma chunk_end_period_rule_witness :
  let boundary := 0 + 400 in
  let sentenceEnd := lastIndexOf period_at_400 period boundary in
  ((sentenceEnd = -1 /\
    forall j, Z.of_nat j <= boundary ->
              unit_at period_at_400 j period = false) \/
   (0 <= sentenceEnd <= boundary /\
    unit_at period_at_400 (Z.to_nat sentenceEnd) period = true /\
    forall j, sentenceEnd < Z.of_nat j <= boundary ->
              unit_at period_at_400 j period = false)) /\
  (3 * 400 < 5 * (sentenceEnd - 0) ->
   chunk_end period_at_400 400 0 = sentenceEnd + 1) /\
  (5 * (sentenceEnd - 0) <= 3 * 400 ->
   chunk_end period_at_400 400 0 = boundary).
Proof.
  apply (chunk_end_period_rule period_at_400 400 0).
  - lia.
  - vm_compute. reflexivity.
Defined.

(** The rule with "at least" fails on the default chunk size: the period of
    [period_at_240] sits at offset 240, which is 0.6 x 400, the boundary 400
    is inside the text, and the cut is the raw boundary, not 241. *)
Lemma period_rule_at_least_counterexample :
  0 + 400 < len period_at_240 /\
  lastIndexOf period_at_240 period (0 + 400) = 240 /\
  3 * 400 <= 5 * (240 - 0) /\
  chunk_end period_at_240 400 0 = 400 /\
  chunk_end period_at_240 400 0 <> 240 + 1 /\
  option_map (map len) (chunkText period_at_240 400) = Some [400; 41].
Proof.
  vm_compute. repeat split; congruence.
Qed.

(** The product the source compares against, for the default chunk size: in
    binary64, [400 * 0.6] is exactly 240. *)
Lemma threshold_default_exact : (400 * 0.6 = 240)%float.
Proof. reflexivity. Qed.

(** The exact test and the binary64 test agree for every chunk size up to the
    default, two chunk starts and every position of the period. *)
Lemma past_threshold_checked :
  thresholds_agree 400 [0%Z; 1000003%Z] = true.
Proof. vm_compute. reflexivity. Qed.

(** *** The length of a chunk *)

Lemma drop_space_length (s : js_string) :
  (List.length (drop_space s) <= List.length s)%nat.
Proof.
  induction s as [|c s IH]; [reflexivity|]. cbn [drop_space].
  destruct (is_space c); cbn [List.length]; lia.
Qed.

Lemma trim_length (s : js_string) : len (trim s) <= len s.
Proof.
  unfold len, trim. rewrite length_rev.
  pose proof (drop_space_length (rev (drop_space s))) as H1.
  rewrite length_rev in H1.
  pose proof (drop_space_length s). lia.
Qed.

Lemma slice_length (s : js_string) (a b : Z) :
  0 <= a <= b -> len (slice s a b) <= b - a.
Proof.
  intros Hab. unfold slice, slice_index, len.
  rewrite length_firstn.
  destruct (a <? 0) eqn:Ha; [apply Z.ltb_lt in Ha; lia|].
  destruct (b <? 0) eqn:Hb; [apply Z.ltb_lt in Hb; lia|].
  lia.
Qed.

Lemma chunk_end_at_most (cleanText : js_string) (chunkSize start : Z) :
  0 <= start -> 0 <= chunkSize ->
  chunk_end cleanText chunkSize start <= start + chunkSize + 1.
Proof.
  intros Hs Hc. unfold chunk_end. cbv zeta.
  destruct (start + chunkSize <? len cleanText); [|lia].
  pose proof (lastIndexOf_bounds cleanText period (start + chunkSize)).
  destruct (past_threshold chunkSize start
              (lastIndexOf cleanText period (start + chunkSize))); lia.
Qed.

Lemma push_chunk_In (chunks : list js_string) (chunk c : js_string) :
  In c (push_chunk chunks chunk) -> In c chunks \/ c = chunk.
Proof.
  unfold push_chunk. destruct (0 <? len chunk); [|auto].
  intros H. apply in_app_or in H. destruct H as [H | [H | []]]; auto.
Qed.

Lemma chunk_loop_lengths (cleanText : js_string) (chunkSize : Z) (fuel : nat) :
  1 <= chunkSize ->
  forall start chunks result,
    0 <= start ->
    (forall c, In c chunks -> len c <= chunkSize + 1) ->
    chunk_loop fuel cleanText chunkSize start chunks = Some result ->
    forall c, In c result -> len c <= chunkSize + 1.
Proof.
  intros Hsize. induction fuel as [|fuel IH];
    intros start chunks result Hstart Hchunks Hrun; cbn [chunk_loop] in Hrun.
  - destruct (start <? len cleanText); [discriminate|].
    injection Hrun as <-. assumption.
  - destruct (start <? len cleanText); [|injection Hrun as <-; assumption].
    pose proof (chunk_end_advances cleanText chunkSize start Hsize) as Hadv.
    pose proof (chunk_end_at_most cleanText chunkSize start Hstart
                  ltac:(lia)) as Hmost.
    refine (IH _ _ _ _ _ Hrun); [lia|].
    intros c Hc. apply push_chunk_In in Hc. destruct Hc as [Hc | ->].
    + apply Hchunks. assumption.
    + pose proof (trim_length (slice cleanText start
                     (chunk_end cleanText chunkSize start))).
      pose proof (slice_length cleanText start
                    (chunk_end cleanText chunkSize start) ltac:(lia)).
      lia.
Qed.

(** Every chunk has at most [chunkSize + 1] units. *)
Lemma chunk_length_bound (text_ : js_string) (chunkSize : Z)
  (chunks : list js_string) :
  1 <= chunkSize ->
  chunkText text_ chunkSize = Some chunks ->
  forall c, In c chunks -> len c <= chunkSize + 1.
Proof.
  intros Hsize Hrun. unfold chunkText in Hrun.
  destruct text_ as [|u rest]; [injection Hrun as <-; contradiction|].
  destruct (len (trim (replace_ws (u :: rest))) <=? chunkSize) eqn:E.
  - injection Hrun as <-. apply Z.leb_le in E.
    intros c [<- | []]. lia.
  - refine (chunk_loop_lengths _ _ _ Hsize 0 [] chunks _ _ Hrun);
      [lia | intros c []].
Qed.

(** C2 at a text the handlers can receive: the period of [period_at_400] is
    found at the boundary itself, the cut is taken after it, and the first
    chunk has 401 units, one more than [chunkSize]. *)
Theorem chunk_longer_than_chunkSize :
  exists first_chunk second_chunk,
    chunkText period_at_400 default_chunkSize
      = Some [first_chunk; second_chunk] /\
    len first_chunk = 401 /\
    default_chunkSize < len first_chunk /\
    lastIndexOf period_at_400 period (0 + default_chunkSize) = 400 /\
    chunk_end period_at_400 default_chunkSize 0 = 401.
Proof.
  eexists. eexists. vm_compute. repeat split; reflexivity.
Qed.

(** ** Binary64 arithmetic *)

Local Open Scope float_scope.

Module FloatFacts.

(** The product of two numbers does not depend on their order. *)
Lemma SFmul_comm (x y : spec_float) : SF64mul x y = SF64mul y x.
Proof.
  unfold SF64mul.
  destruct x as [sx|sx| |sx mx ex], y as [sy|sy| |sy my ey];
    cbn [SFmul];
    try rewrite (xorb_comm sx sy);
    try rewrite (Pos.mul_comm mx my), (Z.add_comm ex ey);
    reflexivity.
Qed.

Lemma mul_comm (x y : float) : x * y = y * x.
Proof.
  apply Prim2SF_inj. rewrite !mul_spec. apply SFmul_comm.
Qed.

(** Swapping the arguments of a comparison reverses its outcome. *)
Lemma SFcompare_antisym (x y : spec_float) :
  SFcompare y x = option_map CompOpp (SFcompare x y).
Proof.
  destruct x as [sx|sx| |sx mx ex], y as [sy|sy| |sy my ey];
    try reflexivity;
    try (destruct sx; reflexivity);
    try (destruct sy; reflexivity);
    try (destruct sx, sy; reflexivity).
  cbn [SFcompare option_map].
  change (Pos.compare_cont Eq my mx) with (Pos.compare my mx).
  change (Pos.compare_cont Eq mx my) with (Pos.compare mx my).
  rewrite (Z.compare_antisym ex ey), (Pos.compare_antisym mx my).
  destruct sx, sy; try reflexivity;
    destruct (ex ?= ey)%Z; try reflexivity;
    destruct (mx ?= my)%positive; reflexivity.
Qed.


(** [x < y] rules out [y < x]. *)
Lemma ltb_not_ltb (x y : float) : (x <? y) = true -> (y <? x) = false.
Proof.
  rewrite !ltb_spec. unfold SFltb.
  rewrite (SFcompare_antisym (Prim2SF x) (Prim2SF y)).
  destruct (SFcompare (Prim2SF x) (Prim2SF y)) as [[| |]|];
    cbn; congruence.
Qed.

(** The two thresholds, bit for bit. *)
Lemma high_threshold_bits :
  Prim2SF high_threshold = S754_finite false 6305039478318694 (-53).
Proof. vm_compute. reflexivity. Qed.

Lemma medium_threshold_bits :
  Prim2SF medium_threshold = S754_finite false 5404319552844595 (-53).
Proof. vm_compute. reflexivity. Qed.

(** Two positive finite numbers compare by exponent, then by mantissa. *)
Lemma SFltb_pos (m1 : positive) (e1 : Z) (m2 : positive) (e2 : Z) :
  SFltb (S754_finite false m1 e1) (S754_finite false m2 e2) = true <->
  (e1 < e2 \/ (e1 = e2 /\ Z.pos m1 < Z.pos m2))%Z.
Proof.
  unfold SFltb, SFcompare.
  replace (Pos.compare_cont Eq m1 m2) with (m1 ?= m2)%positive
    by reflexivity.
  destruct (Z.compare_spec e1 e2); destruct (Pos.compare_spec m1 m2);
    split; intros; try discriminate; try reflexivity; try lia.
Qed.



(** A score above the high threshold is above the medium one. *)
Lemma high_above_medium (s : float) :
  (high_threshold <? s) = true -> (medium_threshold <? s) = true.
Proof.
  rewrite !ltb_spec, high_threshold_bits, medium_threshold_bits.
  destruct (Prim2SF s) as [sg|sg| |sg m e]; try discriminate.
  - destruct sg; cbn [SFltb SFcompare]; congruence.
  - destruct sg; [discriminate|].
    intros Hlt. apply SFltb_pos in Hlt. apply SFltb_pos. lia.
Qed.

End FloatFacts.

(** ** Rounding in binary64 *)

Local Open Scope Z_scope.

(** *** Digit counts and right shifts *)

Lemma digits2_pos_bounds (p : positive) :
  2 ^ (Z.pos (digits2_pos p) - 1) <= Z.pos p < 2 ^ Z.pos (digits2_pos p).
Proof.
  induction p as [p IH|p IH|]; cbn [digits2_pos].
  - rewrite Pos2Z.inj_succ.
    replace (Z.succ (Z.pos (digits2_pos p)) - 1)
      with (Z.succ (Z.pos (digits2_pos p) - 1)) by lia.
    rewrite !Z.pow_succ_r by lia. lia.
  - rewrite Pos2Z.inj_succ.
    replace (Z.succ (Z.pos (digits2_pos p)) - 1)
      with (Z.succ (Z.pos (digits2_pos p) - 1)) by lia.
    rewrite !Z.pow_succ_r by lia. lia.
  - cbn. lia.
Qed.

Lemma digits2_pos_unique (p : positive) (d : Z) :
  2 ^ (d - 1) <= Z.pos p < 2 ^ d -> 1 <= d -> Z.pos (digits2_pos p) = d.
Proof.
  intros [Hlo Hhi] Hd.
  pose proof (digits2_pos_bounds p) as [Blo Bhi].
  destruct (Z.lt_trichotomy (Z.pos (digits2_pos p)) d) as [Hlt | [Heq | Hgt]];
    [|assumption|].
  - assert (2 ^ Z.pos (digits2_pos p) <= 2 ^ (d - 1))
      by (apply Z.pow_le_mono_r; lia).
    lia.
  - assert (2 ^ d <= 2 ^ (Z.pos (digits2_pos p) - 1))
      by (apply Z.pow_le_mono_r; lia).
    lia.
Qed.

Lemma shr_1_m (mrs : shr_record) :
  0 <= shr_m mrs -> shr_m (shr_1 mrs) = shr_m mrs / 2.
Proof.
  destruct mrs as [m r s]. cbn [shr_m]. intros Hm.
  destruct m as [|p|p]; [reflexivity| |lia].
  destruct p as [p|p|]; cbn [shr_1 shr_m].
  - apply Z.div_unique with (r := 1); lia.
  - apply Z.div_unique with (r := 0); lia.
  - reflexivity.
Qed.

Lemma iter_pos_shr_m (p : positive) :
  forall mrs, 0 <= shr_m mrs ->
    shr_m (iter_pos shr_1 p mrs) = shr_m mrs / 2 ^ Z.pos p.
Proof.
  induction p as [p IH|p IH|]; intros mrs Hm; cbn [iter_pos].
  - assert (H1 : 0 <= shr_m (shr_1 mrs)).
    { rewrite shr_1_m by assumption. apply Z.div_pos; lia. }
    assert (H2 : 0 <= shr_m (iter_pos shr_1 p (shr_1 mrs))).
    { rewrite IH by assumption. apply Z.div_pos; [assumption|].
      apply Z.pow_pos_nonneg; lia. }
    rewrite IH by assumption. rewrite IH by assumption.
    rewrite shr_1_m by assumption.
    rewrite !Z.div_div by (try apply Z.pow_pos_nonneg; lia).
    f_equal.
    replace (Z.pos p~1) with (Z.succ (Z.pos p + Z.pos p)) by lia.
    rewrite Z.pow_succ_r, Z.pow_add_r by lia. reflexivity.
  - assert (H2 : 0 <= shr_m (iter_pos shr_1 p mrs)).
    { rewrite IH by assumption. apply Z.div_pos; [assumption|].
      apply Z.pow_pos_nonneg; lia. }
    rewrite IH by assumption. rewrite IH by assumption.
    rewrite !Z.div_div by (try apply Z.pow_pos_nonneg; lia).
    f_equal.
    replace (Z.pos p~0) with (Z.pos p + Z.pos p) by lia.
    rewrite Z.pow_add_r by lia. reflexivity.
  - rewrite shr_1_m by assumption. reflexivity.
Qed.

Lemma round_nearest_even_cases (mx : Z) (lx : location) :
  round_nearest_even mx lx = mx \/ round_nearest_even mx lx = mx + 1.
Proof.
  destruct lx as [|[| |]]; cbn [round_nearest_even]; auto.
  destruct (Z.even mx); auto.
Qed.

(** Rounding a mantissa of [53 + k] digits, [k >= 1], at or above the
    smallest exponent. *)
Lemma binary_round_aux_shift_gen (sx : bool) (M : positive) (E : Z)
  (k : positive) :
  Z.pos (digits2_pos M) = 53 + Z.pos k ->
  -1074 <= E + Z.pos k ->
  exists (q : positive) (e : Z),
    binary_round_aux prec emax sx (Z.pos M) E loc_Exact
      = finite_or_overflow sx q e /\
    ((e = E + Z.pos k /\
      (Z.pos q = Z.pos M / 2 ^ Z.pos k \/
       Z.pos q = Z.pos M / 2 ^ Z.pos k + 1)) \/
     (e = E + Z.pos k + 1 /\ Z.pos q = 2 ^ 52 /\
      Z.pos M / 2 ^ Z.pos k + 1 = 2 ^ 53)).
Proof.
  intros Hdigits Hlow.
  pose proof (digits2_pos_bounds M) as [Mlo Mhi].
  rewrite Hdigits in Mlo, Mhi.
  set (q1 := Z.pos M / 2 ^ Z.pos k).
  assert (Hpow : 0 < 2 ^ Z.pos k) by (apply Z.pow_pos_nonneg; lia).
  assert (Hq1 : 2 ^ 52 <= q1 < 2 ^ 53).
  { unfold q1. split.
    - apply Z.div_le_lower_bound; [assumption|].
      rewrite <- Z.pow_add_r by lia.
      replace (Z.pos k + 52) with (53 + Z.pos k - 1) by lia. assumption.
    - apply Z.div_lt_upper_bound; [assumption|].
      rewrite <- Z.pow_add_r by lia.
      replace (Z.pos k + 53) with (53 + Z.pos k) by lia. assumption. }
  unfold binary_round_aux, shr_fexp, finite_or_overflow.
  cbn [Zdigits2]. rewrite Hdigits.
  unfold fexp at 1. unfold SpecFloat.emin, prec, emax.
  replace (Z.max (53 + Z.pos k + E - 53) (3 - 1024 - 53) - E) with (Z.pos k)
    by lia.
  cbn [shr shr_record_of_loc].
  set (mrs := iter_pos shr_1 k
                {| shr_m := Z.pos M; shr_r := false; shr_s := false |}).
  assert (Hm : shr_m mrs = q1).
  { unfold mrs. rewrite iter_pos_shr_m by (cbn; lia). reflexivity. }
  rewrite Hm.
  destruct (round_nearest_even_cases q1 (loc_of_shr_record mrs)) as [Hr | Hr];
    rewrite Hr.
  - (* the mantissa is kept *)
    destruct q1 as [|q|q] eqn:Eq1; try lia.
    assert (Hd : Z.pos (digits2_pos q) = 53)
      by (apply digits2_pos_unique; cbn; lia).
    cbn [Zdigits2]. rewrite Hd.
    unfold fexp. unfold SpecFloat.emin.
    replace (Z.max (53 + (E + Z.pos k) - 53) (3 - 1024 - 53) - (E + Z.pos k))
      with 0 by lia.
    cbn [shr shr_record_of_loc shr_m].
    exists q, (E + Z.pos k). split; [reflexivity|]. left. split; [reflexivity|].
    left. reflexivity.
  - (* the mantissa is incremented *)
    destruct (Z.eq_dec (q1 + 1) (2 ^ 53)) as [Hcarry | Hnocarry].
    + rewrite Hcarry.
      change (2 ^ 53) with (Z.pos (2 ^ 53)).
      cbn [Zdigits2].
      replace (Z.pos (digits2_pos (2 ^ 53))) with 54
        by (vm_compute; reflexivity).
      unfold fexp. unfold SpecFloat.emin.
      replace (Z.max (54 + (E + Z.pos k) - 53) (3 - 1024 - 53) - (E + Z.pos k))
        with 1 by lia.
      cbn [shr shr_record_of_loc iter_pos].
      replace (shr_m (shr_1 {| shr_m := Z.pos (2 ^ 53);
                               shr_r := false; shr_s := false |}))
        with (Z.pos (2 ^ 52)) by (vm_compute; reflexivity).
      exists (2 ^ 52)%positive, (E + Z.pos k + 1). split; [reflexivity|].
      right. split; [reflexivity|]. split; reflexivity.
    + destruct (q1 + 1) as [|q|q] eqn:Eq1; try lia.
      assert (Hd : Z.pos (digits2_pos q) = 53)
        by (apply digits2_pos_unique; cbn; lia).
      cbn [Zdigits2]. rewrite Hd.
      unfold fexp. unfold SpecFloat.emin.
      replace (Z.max (53 + (E + Z.pos k) - 53) (3 - 1024 - 53) - (E + Z.pos k))
        with 0 by lia.
      cbn [shr shr_record_of_loc shr_m].
      exists q, (E + Z.pos k). split; [reflexivity|]. left. split; [reflexivity|].
      right. reflexivity.
Qed.

(** A mantissa that needs no shift is kept as it is. *)
Lemma binary_round_aux_exact (sx : bool) (M : positive) (E : Z) :
  fexp prec emax (Z.pos (digits2_pos M) + E) <= E ->
  binary_round_aux prec emax sx (Z.pos M) E loc_Exact
    = finite_or_overflow sx M E.
Proof.
  intros Hfexp.
  assert (Hshr : shr_fexp prec emax (Z.pos M) E loc_Exact
                 = ({| shr_m := Z.pos M; shr_r := false; shr_s := false |}, E)).
  { unfold shr_fexp. cbn [Zdigits2 shr_record_of_loc].
    destruct (fexp prec emax (Z.pos (digits2_pos M) + E) - E) eqn:Ek;
      try reflexivity.
    lia. }
  unfold binary_round_aux. rewrite Hshr.
  cbn [shr_m loc_of_shr_record round_nearest_even]. rewrite Hshr.
  reflexivity.
Qed.

Lemma digits2_pos_iter_xO (M : positive) (n : positive) :
  Z.pos (digits2_pos (Pos.iter xO M n)) = Z.pos (digits2_pos M) + Z.pos n.
Proof.
  induction n as [|n IH] using Pos.peano_ind.
  - cbn [Pos.iter digits2_pos]. lia.
  - rewrite Pos.iter_succ. cbn [digits2_pos]. lia.
Qed.

(** Rounding a positive mantissa at an exponent that is not below the
    smallest one gives a number that is not zero and has the given sign. *)
Lemma binary_round_nonzero (sx : bool) (M : positive) (E : Z) :
  -1074 <= E ->
  exists q e, binary_round prec emax sx M E = finite_or_overflow sx q e.
Proof.
  intros HE. unfold binary_round, shl_align.
  set (d := Z.pos (digits2_pos M)).
  destruct (fexp prec emax (d + E) - E) as [|k|k] eqn:Ek.
  - exists M, E. apply binary_round_aux_exact. fold d. lia.
  - unfold fexp, SpecFloat.emin, prec, emax in Ek.
    assert (Hd : d = 53 + Z.pos k) by lia.
    destruct (binary_round_aux_shift_gen sx M E k Hd ltac:(lia))
      as [q [e [Hr _]]].
    exists q, e. exact Hr.
  - exists (Pos.iter xO M k), (fexp prec emax (d + E)).
    apply binary_round_aux_exact.
    rewrite digits2_pos_iter_xO. fold d.
    replace (d + Z.pos k + fexp prec emax (d + E)) with (d + E) by lia.
    apply Z.le_refl.
Qed.



(** *** The order of values *)

(** The exponent and mantissa of a valid finite number. *)
Lemma valid_finite_bounds (sg : bool) (m : positive) (e : Z) :
  valid_binary (S754_finite sg m e) = true ->
  -1074 <= e <= 971 /\ Z.pos m < 2 ^ 53 /\ (-1074 < e -> 2 ^ 52 <= Z.pos m).
Proof.
  cbn [valid_binary]. unfold bounded, canonical_mantissa. intros H.
  apply andb_prop in H. destruct H as [Hcanon Hmax].
  apply Z.eqb_eq in Hcanon. apply Z.leb_le in Hmax.
  unfold fexp, SpecFloat.emin, prec, emax in *.
  pose proof (digits2_pos_bounds m) as [Mlo Mhi].
  split; [lia|]. split.
  - assert (Hd : Z.pos (digits2_pos m) <= 53) by lia.
    assert (2 ^ Z.pos (digits2_pos m) <= 2 ^ 53)
      by (apply Z.pow_le_mono_r; lia).
    lia.
  - intros He. assert (Hd : Z.pos (digits2_pos m) = 53) by lia.
    rewrite Hd in Mlo. exact Mlo.
Qed.

Lemma scaled_finite_bounds (sg : bool) (m : positive) (e : Z) :
  valid_binary (S754_finite sg m e) = true ->
  0 < Z.pos m * 2 ^ (e + 1074) < 2 ^ 2200.
Proof.
  intros Hv. destruct (valid_finite_bounds sg m e Hv) as [He [Hm _]].
  assert (Hp : 0 < 2 ^ (e + 1074)) by (apply Z.pow_pos_nonneg; lia).
  split; [lia|].
  assert (Hle : 2 ^ (e + 1074) <= 2 ^ 2045) by (apply Z.pow_le_mono_r; lia).
  replace (2 ^ 2200) with (2 ^ 53 * 2 ^ 2147)
    by (rewrite <- Z.pow_add_r by lia; reflexivity).
  assert (H2 : 2 ^ 2045 <= 2 ^ 2147) by (apply Z.pow_le_mono_r; lia).
  assert (0 < 2 ^ 53) by (apply Z.pow_pos_nonneg; lia).
  nia.
Qed.

(** Among valid positive finite numbers, a smaller exponent means a smaller
    value. *)
Lemma scaled_exponent_lt (m1 : positive) (e1 : Z) (m2 : positive) (e2 : Z) :
  valid_binary (S754_finite false m1 e1) = true ->
  valid_binary (S754_finite false m2 e2) = true ->
  e1 < e2 ->
  Z.pos m1 * 2 ^ (e1 + 1074) < Z.pos m2 * 2 ^ (e2 + 1074).
Proof.
  intros H1 H2 Hlt.
  destruct (valid_finite_bounds _ _ _ H1) as [He1 [Hm1 _]].
  destruct (valid_finite_bounds _ _ _ H2) as [He2 [_ Hm2]].
  specialize (Hm2 ltac:(lia)).
  replace (e2 + 1074) with ((e1 + 1074) + (e2 - e1)) by lia.
  rewrite (Z.pow_add_r 2 (e1 + 1074) (e2 - e1)) by lia.
  assert (Hp : 0 < 2 ^ (e1 + 1074)) by (apply Z.pow_pos_nonneg; lia).
  assert (Hd : 2 ^ 1 <= 2 ^ (e2 - e1)) by (apply Z.pow_le_mono_r; lia).
  change (2 ^ 1) with 2 in Hd.
  change (2 ^ 53) with (2 * 2 ^ 52) in Hm1.
  assert (Z.pos m1 < Z.pos m2 * 2 ^ (e2 - e1)) by nia.
  nia.
Qed.

Lemma pow_2200_pos : 0 < 2 ^ 2200.
Proof. apply Z.pow_pos_nonneg; lia. Qed.

Lemma compare_finite_same_sign (m1 : positive) (e1 : Z) (m2 : positive)
  (e2 : Z) :
  valid_binary (S754_finite false m1 e1) = true ->
  valid_binary (S754_finite false m2 e2) = true ->
  match e1 ?= e2 with
  | Eq => Pos.compare_cont Eq m1 m2
  | Lt => Lt
  | Gt => Gt
  end = (Z.pos m1 * 2 ^ (e1 + 1074) ?= Z.pos m2 * 2 ^ (e2 + 1074)).
Proof.
  intros H1 H2. symmetry.
  destruct (Z.compare_spec e1 e2) as [-> | Hlt | Hgt].
  - replace (Pos.compare_cont Eq m1 m2) with (m1 ?= m2)%positive
      by reflexivity.
    destruct (valid_finite_bounds _ _ _ H2) as [He _].
    assert (Hp : 0 < 2 ^ (e2 + 1074)) by (apply Z.pow_pos_nonneg; lia).
    destruct (Pos.compare_spec m1 m2) as [-> | Hm | Hm].
    + apply Z.compare_refl.
    + apply Z.compare_lt_iff. nia.
    + apply Z.compare_gt_iff. nia.
  - apply Z.compare_lt_iff. apply scaled_exponent_lt; assumption.
  - apply Z.compare_gt_iff. apply scaled_exponent_lt; assumption.
Qed.

(** Comparison is comparison of values. *)
Lemma SFcompare_scaled (x y : spec_float) :
  valid_binary x = true -> valid_binary y = true ->
  is_number x = true -> is_number y = true ->
  SFcompare x y = Some (scaled x ?= scaled y).
Proof.
  intros Hx Hy Nx Ny.
  pose proof pow_2200_pos as P.
  destruct x as [sx|sx| |sx mx ex]; try discriminate;
    destruct y as [sy|sy| |sy my ey]; try discriminate;
    try pose proof (scaled_finite_bounds _ _ _ Hx) as Bx;
    try pose proof (scaled_finite_bounds _ _ _ Hy) as By;
    cbn [SFcompare scaled].
  all: try (destruct sx); try (destruct sy); cbn [cond_Zopp];
    try (f_equal; symmetry;
         first [ apply Z.compare_eq_iff; lia
               | apply Z.compare_lt_iff; lia
               | apply Z.compare_gt_iff; lia ]).
  - f_equal. rewrite Z.compare_opp.
    rewrite <- (compare_finite_same_sign my ey mx ex Hy Hx).
    rewrite (Z.compare_antisym ey ex).
    replace (Pos.compare_cont Eq mx my) with (mx ?= my)%positive
      by reflexivity.
    replace (Pos.compare_cont Eq my mx) with (my ?= mx)%positive
      by reflexivity.
    rewrite (Pos.compare_antisym my mx).
    destruct (ey ?= ex); destruct (my ?= mx)%positive; reflexivity.
  - f_equal. apply (compare_finite_same_sign mx ex my ey Hx Hy).
Qed.

Lemma iter_xO_value (m : positive) (n : positive) :
  Z.pos (Pos.iter xO m n) = Z.pos m * 2 ^ Z.pos n.
Proof.
  induction n as [|n IH] using Pos.peano_ind.
  - cbn [Pos.iter]. change (2 ^ 1) with 2. lia.
  - rewrite Pos.iter_succ, Pos2Z.inj_succ, Z.pow_succ_r by lia. lia.
Qed.

(** Aligning a mantissa to a smaller exponent keeps the value. *)
Lemma shl_align_value (m : positive) (e ez : Z) :
  ez <= e ->
  Z.pos (fst (shl_align m e ez)) = Z.pos m * 2 ^ (e - ez).
Proof.
  intros Hle. unfold shl_align.
  destruct (ez - e) as [|d|d] eqn:Ed; cbn [fst].
  - replace (e - ez) with 0 by lia. change (2 ^ 0) with 1. lia.
  - lia.
  - rewrite iter_xO_value. replace (e - ez) with (Z.pos d) by lia.
    reflexivity.
Qed.

Lemma zero_ltb_finite_or_overflow (sx : bool) (q : positive) (e : Z) :
  SFltb (S754_zero false) (finite_or_overflow sx q e) = negb sx.
Proof.
  unfold finite_or_overflow.
  destruct (e <=? emax - prec); destruct sx; reflexivity.
Qed.

(** The sign of a difference of two valid numbers is the order of their
    values. *)
Lemma SFsub_positive (x y : spec_float) :
  valid_binary x = true -> valid_binary y = true ->
  is_number x = true -> is_number y = true ->
  SFltb (S754_zero false) (SF64sub y x) = (scaled x <? scaled y).
Proof.
  intros Hx Hy Nx Ny.
  pose proof pow_2200_pos as P.
  destruct x as [sx|sx| |sx mx ex]; try discriminate;
    destruct y as [sy|sy| |sy my ey]; try discriminate;
    try pose proof (scaled_finite_bounds _ _ _ Hx) as Bx;
    try pose proof (scaled_finite_bounds _ _ _ Hy) as By;
    unfold SF64sub; cbn [SFsub scaled].
  all: try (destruct sx); try (destruct sy); cbn [cond_Zopp negb];
    try (symmetry; first [ apply Z.ltb_lt; lia | apply Z.ltb_ge; lia ]).
  all: cbv zeta.
  all: destruct (valid_finite_bounds _ _ _ Hx) as [Hex _];
    destruct (valid_finite_bounds _ _ _ Hy) as [Hey _].
  all: set (ez := Z.min ey ex).
  all: rewrite (shl_align_value my ey ez) by lia;
    rewrite (shl_align_value mx ex ez) by lia.
  all: assert (Hpz : 0 < 2 ^ (ez + 1074)) by (apply Z.pow_pos_nonneg; lia).
  all: assert (Hsx : Z.pos mx * 2 ^ (ex + 1074)
                     = Z.pos mx * 2 ^ (ex - ez) * 2 ^ (ez + 1074))
    by (rewrite <- Z.mul_assoc, <- Z.pow_add_r by lia; do 2 f_equal; lia).
  all: assert (Hsy : Z.pos my * 2 ^ (ey + 1074)
                     = Z.pos my * 2 ^ (ey - ez) * 2 ^ (ez + 1074))
    by (rewrite <- Z.mul_assoc, <- Z.pow_add_r by lia; do 2 f_equal; lia).
  all: rewrite Hsx, Hsy.
  all: set (A := Z.pos my * 2 ^ (ey - ez)); set (B := Z.pos mx * 2 ^ (ex - ez)).
  all: assert (HA : 0 < A)
    by (unfold A; apply Z.mul_pos_pos; [lia | apply Z.pow_pos_nonneg; lia]).
  all: assert (HB : 0 < B)
    by (unfold B; apply Z.mul_pos_pos; [lia | apply Z.pow_pos_nonneg; lia]).
  all: unfold binary_normalize.
  all: match goal with
       | |- context [match ?D with Z0 => _ | Zpos _ => _ | Zneg _ => _ end] =>
           destruct D as [|p|p] eqn:ED
       end.
  all: try (destruct (binary_round_nonzero false p ez ltac:(lia))
              as [q [e ->]]);
    try (destruct (binary_round_nonzero true p ez ltac:(lia))
              as [q [e ->]]);
    try rewrite zero_ltb_finite_or_overflow; cbn [negb SFltb SFcompare];
    symmetry; first [ apply Z.ltb_lt; nia | apply Z.ltb_ge; nia ].
Qed.

Local Open Scope float_scope.

(** *** The product with 100 and its rounding *)











(** *** Comparison and subtraction of numbers *)

Lemma not_nan_is_number (a : float) :
  is_nan a = false -> is_number (Prim2SF a) = true.
Proof.
  unfold is_nan. rewrite eqb_spec. unfold SFeqb.
  destruct (Prim2SF a); try reflexivity. cbn. discriminate.
Qed.

(** On numbers, [<] and [<=] are those of the values. *)
Lemma ltb_scaled (a b : float) :
  is_nan a = false -> is_nan b = false ->
  (a <? b) = (scaled (Prim2SF a) <? scaled (Prim2SF b))%Z.
Proof.
  intros Ha Hb. rewrite ltb_spec. unfold SFltb.
  rewrite SFcompare_scaled
    by (try apply Prim2SF_valid; apply not_nan_is_number; assumption).
  reflexivity.
Qed.

Lemma leb_scaled (a b : float) :
  is_nan a = false -> is_nan b = false ->
  (a <=? b) = (scaled (Prim2SF a) <=? scaled (Prim2SF b))%Z.
Proof.
  intros Ha Hb. rewrite leb_spec. unfold SFleb.
  rewrite SFcompare_scaled
    by (try apply Prim2SF_valid; apply not_nan_is_number; assumption).
  unfold Z.leb.
  destruct (scaled (Prim2SF a) ?= scaled (Prim2SF b))%Z; reflexivity.
Qed.

(** The comparator [b - a] is positive exactly when [a < b]. *)
Lemma sub_positive (a b : float) :
  is_nan a = false -> is_nan b = false ->
  (0 <? b - a) = (a <? b).
Proof.
  intros Ha Hb. rewrite (ltb_scaled a b Ha Hb).
  rewrite ltb_spec, sub_spec.
  replace (Prim2SF 0) with (S754_zero false) by (vm_compute; reflexivity).
  apply SFsub_positive;
    try apply Prim2SF_valid; apply not_nan_is_number; assumption.
Qed.

(** ** The similarity scorer *)

Section SimilarityFacts.

Lemma skipn_cons_nth {A : Type} (d : A) (i : nat) :
  forall (l : list A) (y : A) (t : list A),
    skipn i l = y :: t -> nth i l d = y /\ skipn (S i) l = t.
Proof.
  induction i as [|i IH]; intros l y t H.
  - destruct l as [|x l]; [discriminate|]. cbn in H.
    injection H as -> ->. split; reflexivity.
  - destruct l as [|x l]; [discriminate|]. cbn [skipn] in H.
    destruct (IH l y t H) as [Hn Hs]. split; assumption.
Qed.

(** On vectors of one length the indexed reduction pairs the components:
    the read [vecB[i]] never leaves the array. *)
Lemma reduce_dot_pairs (vecA : vector) :
  forall (vecB rest : vector) (i : nat) (sum : float),
    skipn i vecB = rest ->
    List.length vecA = List.length rest ->
    reduce_dot vecA vecB i sum = pair_sum (combine vecA rest) sum.
Proof.
  induction vecA as [|val vecA IH]; intros vecB rest i sum Hskip Hlen.
  - reflexivity.
  - destruct rest as [|y rest]; [discriminate|].
    destruct (skipn_cons_nth nan i vecB y rest Hskip) as [Hnth Hrest].
    cbn [reduce_dot combine pair_sum fold_left fst snd].
    unfold at_index. rewrite Hnth.
    apply IH; [assumption|]. cbn in Hlen. lia.
Qed.

Lemma dotProduct_pairs (vecA vecB : vector) :
  List.length vecA = List.length vecB ->
  dotProduct vecA vecB = pair_sum (combine vecA vecB) 0.
Proof.
  intros Hlen. unfold dotProduct.
  apply reduce_dot_pairs; [reflexivity | assumption].
Qed.

Lemma pair_sum_swap (vecA : vector) :
  forall (vecB : vector) (sum : float),
    pair_sum (combine vecA vecB) sum = pair_sum (combine vecB vecA) sum.
Proof.
  induction vecA as [|x vecA IH]; intros vecB sum.
  - destruct vecB; reflexivity.
  - destruct vecB as [|y vecB]; [reflexivity|].
    cbn [combine pair_sum fold_left fst snd].
    rewrite (FloatFacts.mul_comm x y). apply IH.
Qed.

Lemma dotProduct_comm (vecA vecB : vector) :
  List.length vecA = List.length vecB ->
  dotProduct vecA vecB = dotProduct vecB vecA.
Proof.
  intros Hlen.
  rewrite (dotProduct_pairs vecA vecB Hlen).
  rewrite (dotProduct_pairs vecB vecA (eq_sym Hlen)).
  apply pair_sum_swap.
Qed.

End SimilarityFacts.

(** C7: for every pair of arguments, absent ones included, the two orders
    give the same number. *)
Theorem cosineSimilarity_symmetric (vecA vecB : option vector) :
  cosineSimilarity vecA vecB = cosineSimilarity vecB vecA.
Proof.
  destruct vecA as [a|], vecB as [b|]; try reflexivity.
  unfold cosineSimilarity.
  rewrite (Nat.eqb_sym (List.length b) (List.length a)).
  destruct (Nat.eqb (List.length a) (List.length b)) eqn:Hlen;
    [|reflexivity].
  apply Nat.eqb_eq in Hlen. cbn [negb]. cbv zeta.
  rewrite (orb_comm (magnitude b =? 0) (magnitude a =? 0)).
  rewrite (dotProduct_comm a b Hlen).
  rewrite (FloatFacts.mul_comm (magnitude b) (magnitude a)).
  reflexivity.
Qed.



(** ** Ranking and the tiered answer *)

Section SortFacts.

Context {A : Type}.
Variable comparefn : A -> A -> float.

Lemma insert_sorted_In (x : A) (sorted : list A) :
  forall y, In y (insert_sorted comparefn x sorted) <-> y = x \/ In y sorted.
Proof.
  induction sorted as [|z rest IH]; intros y; cbn [insert_sorted].
  - cbn. intuition congruence.
  - destruct (0 <? comparefn x z).
    + cbn [In]. rewrite IH. intuition congruence.
    + cbn [In]. intuition congruence.
Qed.

(** Sorting keeps exactly the elements it was given. *)
Lemma sort_In (l : list A) : forall y, In y (sort comparefn l) <-> In y l.
Proof.
  induction l as [|x l IH]; intros y; [reflexivity|].
  unfold sort in *. cbn [fold_right]. rewrite insert_sorted_In, IH.
  cbn [In]. intuition congruence.
Qed.

Lemma insert_sorted_length (x : A) (sorted : list A) :
  List.length (insert_sorted comparefn x sorted) = S (List.length sorted).
Proof.
  induction sorted as [|z rest IH]; cbn [insert_sorted]; [reflexivity|].
  destruct (0 <? comparefn x z); cbn [List.length]; congruence.
Qed.

Lemma sort_length (l : list A) :
  List.length (sort comparefn l) = List.length l.
Proof.
  induction l as [|x l IH]; [reflexivity|].
  unfold sort in *. cbn [fold_right].
  rewrite insert_sorted_length. cbn [List.length]. congruence.
Qed.

End SortFacts.

(** The first of [topDocs] is the first of the sorted array, and it is one of
    the scored chunks. *)
Lemma best_match_exists (queryEmbedding : option vector) (allDocs : store) :
  allDocs <> [] ->
  exists best rest,
    sort by_score (map (score_doc queryEmbedding) allDocs) = best :: rest /\
    In (doc best) allDocs /\
    best = score_doc queryEmbedding (doc best).
Proof.
  intros Hne.
  destruct (sort by_score (map (score_doc queryEmbedding) allDocs))
    as [|best rest] eqn:Hsort.
  - apply (f_equal (@List.length _)) in Hsort.
    rewrite sort_length, length_map in Hsort.
    destruct allDocs; [contradiction | discriminate].
  - exists best, rest. split; [reflexivity|].
    assert (Hin : In best (map (score_doc queryEmbedding) allDocs)).
    { apply (sort_In by_score). rewrite Hsort. left. reflexivity. }
    apply in_map_iff in Hin. destruct Hin as [c [Hc Hin]].
    subst best. cbn [doc score_doc]. split; [assumption | reflexivity].
Qed.


(** [Math.round(0 * 100)] is [0]. *)
Lemma round_zero_confidence : Math_round (0 * 100) = 0.
Proof. vm_compute. reflexivity. Qed.

(** C4: over an empty collection, whatever the query vector, the reply is
    the fixed "no information" answer with confidence 0, and it is a success
    reply. *)
Theorem empty_corpus_answer (queryEmbedding : option vector) :
  rank_and_answer queryEmbedding [] = QueryOk no_documents_answer 0 /\
  success (rank_and_answer queryEmbedding []) = true.
Proof. split; reflexivity. Qed.

(** The same through the handler: a non-empty question, a provider and a
    database that answer, and an empty collection. *)
Lemma query_empty_collection (w : World) (q : js_string)
  (embeddings : list vector) :
  q <> [] ->
  getEmbeddings w [q] = Some embeddings ->
  throws w Connect = false ->
  throws w Find = false ->
  query w q [] = QueryOk no_documents_answer 0.
Proof.
  intros Hq Hemb Hconnect Hfind. unfold query.
  destruct q; [contradiction|].
  rewrite Hemb, Hconnect, Hfind. reflexivity.
Qed.



(** The tiers at their boundaries, on a one-chunk [topDocs]. *)
Example tier_at_high_threshold :
  select_answer [{| doc := sample_chunk "d" "t" None; score := 0.7 |}]
  = (hedge_prefix ++ lit "t", 0.7).
Proof. vm_compute. reflexivity. Qed.

Example tier_just_above_high_threshold :
  select_answer [{| doc := sample_chunk "d" "t" None; score := 0.7000001 |}]
  = (lit "t", 0.7000001) /\ Math_round (0.7000001 * 100) = 70.
Proof. vm_compute. split; reflexivity. Qed.

Example tier_at_medium_threshold :
  select_answer [{| doc := sample_chunk "d" "t" None; score := 0.6 |}]
  = (refusal_answer, 0).
Proof. vm_compute. reflexivity. Qed.

Example tier_of_nan :
  select_answer [{| doc := sample_chunk "d" "t" None; score := nan |}]
  = (refusal_answer, 0).
Proof. vm_compute. reflexivity. Qed.

(** A score of exactly 0.7 from stored vectors: the chunk's vector has norm
    10 and its first component is 7. *)
Example score_exactly_high_threshold :
  cosineSimilarity (Some [10; 0]) (Some [7; sqrt 51]) = 0.7 /\
  rank_and_answer (Some [10; 0])
    [sample_chunk "d1" "The sky is blue." (Some [7; sqrt 51])]
  = QueryOk (hedge_prefix ++ lit "The sky is blue.") 70.
Proof. vm_compute. split; reflexivity. Qed.

(** ** The confidence of a reply *)





(** ** The document store *)

Local Open Scope Z_scope.

Section StoreFacts.

Lemma str_eqb_refl (a : js_string) : str_eqb a a = true.
Proof.
  unfold str_eqb. destruct (list_eq_dec N.eq_dec a a); congruence.
Qed.

Lemma str_eqb_neq (a b : js_string) : a <> b -> str_eqb a b = false.
Proof.
  intros Hne. unfold str_eqb.
  destruct (list_eq_dec N.eq_dec a b); [contradiction | reflexivity].
Qed.

Lemma str_eqb_eq (a b : js_string) : str_eqb a b = true -> a = b.
Proof.
  unfold str_eqb. destruct (list_eq_dec N.eq_dec a b); congruence.
Qed.

(** After [deleteMany({ docId })] no record of that document is left. *)
Lemma chunks_of_deleteMany_same (id : js_string) (st : store) :
  chunks_of id (deleteMany id st) = [].
Proof.
  unfold chunks_of, deleteMany.
  induction st as [|c st IH]; [reflexivity|]. cbn [filter].
  destruct (str_eqb (docId c) id) eqn:E; cbn [negb filter];
    [|rewrite E]; assumption.
Qed.

(** The records of the other documents stay, in order. *)
Lemma chunks_of_deleteMany_other (id other : js_string) (st : store) :
  other <> id -> chunks_of other (deleteMany id st) = chunks_of other st.
Proof.
  intros Hne. unfold chunks_of, deleteMany.
  induction st as [|c st IH]; [reflexivity|]. cbn [filter].
  destruct (str_eqb (docId c) id) eqn:E; cbn [negb filter].
  - apply str_eqb_eq in E.
    rewrite (str_eqb_neq (docId c) other) by congruence. assumption.
  - destruct (str_eqb (docId c) other); [f_equal|]; assumption.
Qed.

Lemma chunks_of_insertMany (id : js_string) (documents : list Chunk)
  (st : store) :
  chunks_of id (insertMany documents st)
  = chunks_of id st ++ chunks_of id documents.
Proof. unfold chunks_of, insertMany. apply filter_app. Qed.

Lemma chunks_of_all (id : js_string) (l : list Chunk) :
  (forall c, In c l -> docId c = id) -> chunks_of id l = l.
Proof.
  intros Hall. unfold chunks_of.
  induction l as [|c l IH]; [reflexivity|]. cbn [filter].
  rewrite (Hall c (or_introl eq_refl)), str_eqb_refl.
  f_equal. apply IH. intros c' Hin. apply Hall. right. assumption.
Qed.

Lemma chunks_of_none (id : js_string) (l : list Chunk) :
  (forall c, In c l -> docId c <> id) -> chunks_of id l = [].
Proof.
  intros Hall. unfold chunks_of.
  induction l as [|c l IH]; [reflexivity|]. cbn [filter].
  rewrite (str_eqb_neq _ _ (Hall c (or_introl eq_refl))).
  apply IH. intros c' Hin. apply Hall. right. assumption.
Qed.

Context {A B : Type}.
Variable f : A -> nat -> B.

Lemma map_index_length (l : list A) :
  forall i, List.length (map_index f l i) = List.length l.
Proof.
  induction l as [|x l IH]; intros i; cbn [map_index List.length];
    [reflexivity | rewrite IH; reflexivity].
Qed.

Lemma map_index_In (l : list A) :
  forall i y, In y (map_index f l i) ->
              exists x k, In x l /\ (i <= k < i + List.length l)%nat /\
                          y = f x k.
Proof.
  induction l as [|x l IH]; intros i y Hin; [contradiction|].
  cbn [map_index In List.length] in *. destruct Hin as [<- | Hin].
  - exists x, i. split; [left; reflexivity|]. split; [lia | reflexivity].
  - destruct (IH (S i) y Hin) as [x' [k [Hx [Hk Hy]]]].
    exists x', k. split; [right; assumption|]. split; [lia | assumption].
Qed.

(** A projection that returns the index lists the indices in order; one
    that returns the element lists the elements. *)
Lemma map_index_indices (g : B -> Z) (l : list A) :
  (forall x k, g (f x k) = Z.of_nat k) ->
  forall i, map g (map_index f l i)
            = map Z.of_nat (seq i (List.length l)).
Proof.
  intros Hg. induction l as [|x l IH]; intros i; [reflexivity|].
  cbn [map_index map List.length seq]. rewrite Hg, IH. reflexivity.
Qed.

Lemma map_index_elements (g : B -> A) (l : list A) :
  (forall x k, g (f x k) = x) ->
  forall i, map g (map_index f l i) = l.
Proof.
  intros Hg. induction l as [|x l IH]; intros i; [reflexivity|].
  cbn [map_index map]. rewrite Hg, IH. reflexivity.
Qed.

End StoreFacts.

(** What a successful [/ingest] did. *)
Lemma ingest_ok_inv (w : World) (id text_ : js_string) (md : IngestMetadata)
  (st st' : store) (id' : js_string) (n : Z) :
  ingest w id text_ md st = Some (IngestOk id' n, st') ->
  exists chunks embeddings,
    chunkText text_ default_chunkSize = Some chunks /\
    chunks <> [] /\
    getEmbeddings w chunks = Some embeddings /\
    st' = insertMany (ingest_documents w id md chunks embeddings)
            (deleteMany id st) /\
    n = Z.of_nat (List.length chunks) /\
    id' = id.
Proof.
  unfold ingest. intros H.
  destruct id as [|i0 id]; [destruct text_; discriminate|].
  destruct text_ as [|t0 text_]; [discriminate|].
  destruct (chunkText (t0 :: text_) default_chunkSize) as [chunks|];
    [|discriminate].
  destruct chunks as [|ch chunks]; [discriminate|].
  destruct (getEmbeddings w (ch :: chunks)) as [embeddings|] eqn:Hemb;
    [|discriminate].
  destruct (throws w Connect); [discriminate|].
  destruct (throws w DeleteMany); [discriminate|].
  destruct (throws w InsertMany); [discriminate|].
  injection H as <- <- <-.
  exists (ch :: chunks), embeddings.
  split; [reflexivity|]. split; [discriminate|]. split; [assumption|].
  split; [reflexivity|]. split; reflexivity.
Qed.

Lemma ingest_documents_docId (w : World) (id : js_string)
  (md : IngestMetadata) (chunks : list js_string) (embeddings : list vector) :
  forall c, In c (ingest_documents w id md chunks embeddings) -> docId c = id.
Proof.
  intros c Hin. unfold ingest_documents in Hin.
  apply map_index_In in Hin. destruct Hin as [x [k [_ [_ ->]]]]. reflexivity.
Qed.

(** After a successful [/ingest] the records of the document are exactly the
    ones built from the chunks of the submitted text. *)
Lemma ingest_replaces (w : World) (id text_ : js_string) (md : IngestMetadata)
  (st st' : store) (id' : js_string) (n : Z) :
  ingest w id text_ md st = Some (IngestOk id' n, st') ->
  exists chunks embeddings,
    chunkText text_ default_chunkSize = Some chunks /\
    chunks <> [] /\
    getEmbeddings w chunks = Some embeddings /\
    n = Z.of_nat (List.length chunks) /\
    chunks_of id st' = ingest_documents w id md chunks embeddings /\
    (forall other, other <> id -> chunks_of other st' = chunks_of other st).
Proof.
  intros H.
  destruct (ingest_ok_inv _ _ _ _ _ _ _ _ H)
    as [chunks [embeddings [Hchunks [Hne [Hemb [-> [-> _]]]]]]].
  exists chunks, embeddings.
  split; [assumption|]. split; [assumption|]. split; [assumption|].
  split; [reflexivity|]. split.
  - rewrite chunks_of_insertMany, chunks_of_deleteMany_same.
    apply chunks_of_all. apply ingest_documents_docId.
  - intros other Hother.
    rewrite chunks_of_insertMany, chunks_of_deleteMany_other by assumption.
    rewrite (chunks_of_none other
               (ingest_documents w id md chunks embeddings)).
    + apply app_nil_r.
    + intros c Hin. rewrite (ingest_documents_docId _ _ _ _ _ c Hin).
      congruence.
Qed.

(** C8: after two successful ingestions of one [docId], the records of that
    document are exactly those of the second ingestion: their texts are the
    chunks of the second text, in order, their number is the chunk count of
    the second text (the count the second reply reports), and the records of
    every other document are as they were before the second ingestion. *)
Theorem reingest_replaces (w1 w2 : World) (id text1 text2 : js_string)
  (md1 md2 : IngestMetadata) (st0 st1 st2 : store) (n1 n2 : Z) :
  ingest w1 id text1 md1 st0 = Some (IngestOk id n1, st1) ->
  ingest w2 id text2 md2 st1 = Some (IngestOk id n2, st2) ->
  exists chunks2 embeddings2,
    chunkText text2 default_chunkSize = Some chunks2 /\
    getEmbeddings w2 chunks2 = Some embeddings2 /\
    chunks_of id st2 = ingest_documents w2 id md2 chunks2 embeddings2 /\
    map text (chunks_of id st2) = chunks2 /\
    Z.of_nat (List.length (chunks_of id st2))
      = Z.of_nat (List.length chunks2) /\
    n2 = Z.of_nat (List.length chunks2) /\
    (forall other, other <> id -> chunks_of other st2 = chunks_of other st1).
Proof.
  intros _ Hsecond.
  destruct (ingest_replaces _ _ _ _ _ _ _ _ Hsecond)
    as [chunks2 [embeddings2 [Hchunks [_ [Hemb [Hn [Hrecords Hothers]]]]]]].
  exists chunks2, embeddings2.
  split; [assumption|]. split; [assumption|]. split; [assumption|].
  rewrite Hrecords. unfold ingest_documents.
  split; [apply map_index_elements; reflexivity|].
  split; [rewrite map_index_length; reflexivity|].
  split; assumption.
Qed.

(** An instance: two chunks replaced by one. *)
Lemma reingest_replaces_witness :
  List.length (chunks_of (lit "d1") first_version) = 2%nat /\
  map text (chunks_of (lit "d1") second_version) = [lit "The sky is blue."] /\
  Z.of_nat (List.length (chunks_of (lit "d1") second_version)) = 1.
Proof.
  destruct (reingest_replaces (calm_world [1%float]) (calm_world [1%float]) (lit "d1")
              period_at_240 (lit "The sky is blue.")
              no_metadata no_metadata [] first_version second_version 2 1)
    as [chunks2 [embeddings2 [Hchunks [_ [_ [Htexts [Hcount _]]]]]]].
  - vm_compute. reflexivity.
  - vm_compute. reflexivity.
  - vm_compute in Hchunks. injection Hchunks as <-.
    split; [vm_compute; reflexivity|]. split; assumption.
Defined.

(** The [/ingest] path establishes the data-model invariant for the document
    it writes. *)
Lemma ingest_establishes_invariant (w : World) (id text_ : js_string)
  (md : IngestMetadata) (st st' : store) (id' : js_string) (n : Z) :
  ingest w id text_ md st = Some (IngestOk id' n, st') ->
  document_invariant id st'.
Proof.
  intros H.
  destruct (ingest_replaces _ _ _ _ _ _ _ _ H)
    as [chunks [embeddings [_ [Hne [_ [_ [Hrecords _]]]]]]].
  exists (List.length chunks). split; [|split].
  - destruct chunks; [contradiction | cbn; lia].
  - unfold indices_of. rewrite Hrecords. unfold ingest_documents.
    apply map_index_indices. reflexivity.
  - intros c Hin. rewrite Hrecords in Hin. unfold ingest_documents in Hin.
    apply map_index_In in Hin. destruct Hin as [x [k [_ [_ ->]]]].
    reflexivity.
Qed.

(** C9 on the [/load-my-data] path: with a provider and a database that
    answer, the handler replies with success, ten records are written, none
    of them carries [totalChunks], and the invariant fails for the first
    seed document. *)
Theorem load_my_data_omits_totalChunks (v : vector) (st : store) :
  exists st',
    load_my_data (calm_world v) st = Some (LoadOk 10 10, st') /\
    List.length st' = 10%nat /\
    (forall c, In c st' -> totalChunks (metadata c) = None) /\
    ~ document_invariant (lit "csec-lab-1") st'.
Proof.
  eexists. split; [vm_compute; reflexivity|].
  split; [reflexivity|]. split.
  - intros c Hin. cbn [In] in Hin.
    repeat (destruct Hin as [<- | Hin]; [reflexivity|]). contradiction.
  - intros [n [_ [_ Htotal]]].
    specialize (Htotal _ (or_introl eq_refl)). discriminate.
Qed.

(** * Further properties *)

Local Open Scope Z_scope.

(** ** The chunker: what the chunks are made of *)

Lemma solid_app (a b : js_string) : solid (a ++ b) = solid a ++ solid b.
Proof. apply filter_app. Qed.

Lemma drop_space_suffix (s : js_string) :
  exists p, s = p ++ drop_space s /\ solid p = [].
Proof.
  induction s as [|c s [p [Hp Hs]]].
  - exists []. split; reflexivity.
  - cbn [drop_space]. destruct (is_space c) eqn:E.
    + exists (c :: p). split.
      * cbn. rewrite <- Hp. reflexivity.
      * unfold solid in *. cbn [filter]. rewrite E. exact Hs.
    + exists []. split; reflexivity.
Qed.

Lemma solid_drop_space (s : js_string) : solid (drop_space s) = solid s.
Proof.
  destruct (drop_space_suffix s) as [p [Hp Hs]].
  rewrite Hp at 2. rewrite solid_app, Hs. reflexivity.
Qed.

Lemma solid_rev (s : js_string) : solid (rev s) = rev (solid s).
Proof.
  induction s as [|c s IH]; [reflexivity|].
  cbn [rev]. rewrite solid_app, IH. unfold solid. cbn [filter].
  destruct (negb (is_space c)); cbn [rev app]; [reflexivity|].
  rewrite app_nil_r. reflexivity.
Qed.

(** Trimming removes white space only. *)
Lemma solid_trim (s : js_string) : solid (trim s) = solid s.
Proof.
  unfold trim.
  rewrite solid_rev, solid_drop_space, solid_rev, rev_involutive.
  apply solid_drop_space.
Qed.

Lemma solid_collapse (s : js_string) :
  forall in_run, solid (collapse in_run s) = solid s.
Proof.
  induction s as [|c s IH]; intros in_run; [reflexivity|].
  cbn [collapse]. unfold solid in *. cbn [filter].
  destruct (is_space c) eqn:E; cbn [negb].
  - destruct in_run; [apply IH|].
    cbn [filter]. replace (is_space space) with true by reflexivity.
    cbn [negb]. apply IH.
  - cbn [filter]. rewrite E. cbn [negb]. f_equal. apply IH.
Qed.

(** The cleaned text has the non-white-space units of the text. *)
Lemma solid_cleanText (t : js_string) : solid (trim (replace_ws t)) = solid t.
Proof. rewrite solid_trim. apply solid_collapse. Qed.

(** A slice and what follows it make up what follows its start. *)
Lemma skipn_slice (s : js_string) (a b : Z) :
  0 <= a <= b ->
  skipn (Z.to_nat a) s = slice s a b ++ skipn (Z.to_nat b) s.
Proof.
  intros Hab. unfold slice, slice_index, len.
  destruct (a <? 0) eqn:Ha; [apply Z.ltb_lt in Ha; lia|].
  destruct (b <? 0) eqn:Hb; [apply Z.ltb_lt in Hb; lia|].
  set (n := List.length s).
  destruct (Z.le_gt_cases a (Z.of_nat n)) as [Hin | Hout].
  - rewrite (Z.min_l a) by lia.
    rewrite <- (firstn_skipn (Z.to_nat (Z.min b (Z.of_nat n) - a))
                  (skipn (Z.to_nat a) s)) at 1.
    f_equal. rewrite skipn_skipn.
    destruct (Z.le_gt_cases b (Z.of_nat n)) as [Hb' | Hb'].
    + rewrite (Z.min_l b) by lia. f_equal. lia.
    + rewrite (Z.min_r b) by lia.
      rewrite !skipn_all2; [reflexivity | fold n; lia | fold n; lia].
  - rewrite (Z.min_r a), (Z.min_r b) by lia.
    rewrite !skipn_all2 by (fold n; lia).
    rewrite firstn_nil. reflexivity.
Qed.

Lemma solid_push_chunk (chunks : list js_string) (chunk : js_string) :
  solid (List.concat (push_chunk chunks chunk))
  = solid (List.concat chunks) ++ solid chunk.
Proof.
  unfold push_chunk. destruct (0 <? len chunk) eqn:E.
  - rewrite List.concat_app, solid_app. cbn [List.concat]. rewrite app_nil_r.
    reflexivity.
  - apply Z.ltb_ge in E. unfold len in E.
    destruct chunk; [|cbn in E; lia].
    cbn. rewrite app_nil_r. reflexivity.
Qed.

(** The loop hands every unit that is not white space, from [start] on, to
    one chunk, in order. *)
Lemma chunk_loop_solid (cleanText : js_string) (chunkSize : Z) (fuel : nat) :
  1 <= chunkSize ->
  forall start chunks result,
    0 <= start ->
    chunk_loop fuel cleanText chunkSize start chunks = Some result ->
    solid (List.concat result)
    = solid (List.concat chunks) ++ solid (skipn (Z.to_nat start) cleanText).
Proof.
  intros Hsize. induction fuel as [|fuel IH];
    intros start chunks result Hstart Hrun; cbn [chunk_loop] in Hrun;
    destruct (start <? len cleanText) eqn:E; try discriminate.
  - injection Hrun as <-. apply Z.ltb_ge in E.
    rewrite skipn_all2 by (unfold len in E; lia).
    cbn. rewrite app_nil_r. reflexivity.
  - pose proof (chunk_end_advances cleanText chunkSize start Hsize) as Hadv.
    rewrite (IH (chunk_end cleanText chunkSize start) _ _ ltac:(lia) Hrun).
    rewrite solid_push_chunk, solid_trim.
    rewrite (skipn_slice cleanText start
               (chunk_end cleanText chunkSize start)) by lia.
    rewrite solid_app, app_assoc. reflexivity.
  - injection Hrun as <-. apply Z.ltb_ge in E.
    rewrite skipn_all2 by (unfold len in E; lia).
    cbn. rewrite app_nil_r. reflexivity.
Qed.

(** Chunking loses, repeats and reorders no unit that is not white space:
    the chunks, one after the other, have the non-white-space units of the
    text, for every chunk size from 1. *)
Theorem chunkText_keeps_content (text_ : js_string) (chunkSize : Z)
  (chunks : list js_string) :
  1 <= chunkSize ->
  chunkText text_ chunkSize = Some chunks ->
  solid (List.concat chunks) = solid text_.
Proof.
  intros Hsize Hrun. unfold chunkText in Hrun.
  destruct text_ as [|u rest]; [injection Hrun as <-; reflexivity|].
  destruct (len (trim (replace_ws (u :: rest))) <=? chunkSize).
  - injection Hrun as <-. cbn [List.concat]. rewrite app_nil_r.
    apply solid_cleanText.
  - rewrite (chunk_loop_solid _ _ _ Hsize 0 [] chunks ltac:(lia) Hrun).
    cbn [List.concat solid filter app Z.to_nat skipn].
    apply solid_cleanText.
Qed.

Lemma chunkText_keeps_content_witness :
  solid (List.concat [lit "The sky is blue."; lit "Adama is a city."])
  = solid two_sentences.
Proof.
  apply (chunkText_keeps_content two_sentences 20); [lia|].
  vm_compute. reflexivity.
Defined.

(** The bound on the length of a chunk at a text of two sentences, chunk
    size 20. *)
Lemma chunk_length_bound_witness :
  chunkText two_sentences 20
  = Some [lit "The sky is blue."; lit "Adama is a city."] /\
  forall c, In c [lit "The sky is blue."; lit "Adama is a city."] ->
            len c <= 20 + 1.
Proof.
  split; [vm_compute; reflexivity|].
  apply (chunk_length_bound two_sentences 20); [lia|].
  vm_compute. reflexivity.
Defined.

(** ** The chunker: what every chunk looks like *)

Lemma drop_space_fixed (s : js_string) :
  starts_with_space s = false -> drop_space s = s.
Proof.
  destruct s as [|c s]; [reflexivity|]. cbn [starts_with_space drop_space].
  intros ->. reflexivity.
Qed.

Lemma drop_space_starts (s : js_string) :
  starts_with_space (drop_space s) = false.
Proof.
  induction s as [|c s IH]; [reflexivity|]. cbn [drop_space].
  destruct (is_space c) eqn:E; [assumption|]. cbn. assumption.
Qed.

(** A trimmed string is a piece of the string, without white space at either
    end. *)
Lemma trim_spec (s : js_string) :
  exists p q,
    s = p ++ trim s ++ q /\
    starts_with_space (trim s) = false /\
    starts_with_space (rev (trim s)) = false.
Proof.
  unfold trim.
  destruct (drop_space_suffix s) as [p [Hp _]].
  destruct (drop_space_suffix (rev (drop_space s))) as [q [Hq _]].
  set (t := drop_space s) in *.
  set (u := drop_space (rev t)) in *.
  assert (Ht : t = rev u ++ rev q).
  { rewrite <- (rev_involutive t), Hq, rev_app_distr. reflexivity. }
  exists p, (rev q). split; [|split].
  - rewrite <- Ht. exact Hp.
  - assert (Hstart : starts_with_space (rev u ++ rev q) = false)
      by (rewrite <- Ht; apply drop_space_starts).
    destruct (rev u) as [|c r]; [reflexivity | exact Hstart].
  - rewrite rev_involutive. apply drop_space_starts.
Qed.

Lemma trim_fixed (s : js_string) :
  starts_with_space s = false -> starts_with_space (rev s) = false ->
  trim s = s.
Proof.
  intros H1 H2. unfold trim.
  rewrite (drop_space_fixed s H1), (drop_space_fixed (rev s) H2).
  apply rev_involutive.
Qed.

(** Trimming twice is trimming once. *)
Lemma trim_idempotent (s : js_string) : trim (trim s) = trim s.
Proof.
  destruct (trim_spec s) as [p [q [_ [H1 H2]]]].
  apply trim_fixed; assumption.
Qed.


Lemma single_spaced_app (a b : js_string) :
  single_spaced (a ++ b) = true ->
  single_spaced a = true /\ single_spaced b = true.
Proof.
  induction a as [|c a IH]; intros H; [split; [reflexivity | exact H]|].
  cbn [app single_spaced] in H. apply andb_prop in H. destruct H as [Hc Ht].
  destruct (IH Ht) as [Ha Hb]. split; [|assumption].
  cbn [single_spaced]. rewrite Ha, andb_true_r.
  destruct (is_space c); [|reflexivity].
  apply andb_prop in Hc. destruct Hc as [Hc1 Hc2]. rewrite Hc1. cbn [andb].
  destruct a as [|d a]; [reflexivity | exact Hc2].
Qed.

(** After the replacement every white-space unit is a single space. *)
Lemma single_spaced_collapse (s : js_string) :
  forall in_run,
    single_spaced (collapse in_run s) = true /\
    (in_run = true -> starts_with_space (collapse in_run s) = false).
Proof.
  induction s as [|c s IH]; intros in_run; [split; reflexivity|].
  cbn [collapse]. destruct (is_space c) eqn:E.
  - destruct in_run.
    + apply IH.
    + split; [|discriminate].
      cbn [single_spaced].
      replace (is_space space) with true by reflexivity.
      rewrite N.eqb_refl. cbn [andb].
      destruct (IH true) as [H1 H2]. rewrite (H2 eq_refl), H1. reflexivity.
  - split.
    + cbn [single_spaced]. rewrite E. apply (IH false).
    + intros _. cbn. exact E.
Qed.

(** The replacement changes nothing in a single-spaced string. *)
Lemma collapse_fixed (s : js_string) :
  single_spaced s = true ->
  forall in_run,
    (in_run = true -> starts_with_space s = false) ->
    collapse in_run s = s.
Proof.
  induction s as [|c s IH]; intros Hs in_run Hrun; [reflexivity|].
  cbn [single_spaced] in Hs. apply andb_prop in Hs. destruct Hs as [Hc Hs].
  cbn [collapse]. destruct (is_space c) eqn:E.
  - apply andb_prop in Hc. destruct Hc as [Hc Hnext].
    apply N.eqb_eq in Hc. apply negb_true_iff in Hnext.
    destruct in_run.
    + specialize (Hrun eq_refl). cbn in Hrun. congruence.
    + rewrite (IH Hs true (fun _ => Hnext)). rewrite Hc. reflexivity.
  - f_equal. apply (IH Hs false). discriminate.
Qed.

Lemma single_spaced_trim (s : js_string) :
  single_spaced s = true -> single_spaced (trim s) = true.
Proof.
  intros H. destruct (trim_spec s) as [p [q [Hs _]]].
  rewrite Hs in H.
  apply single_spaced_app in H. destruct H as [_ H].
  apply single_spaced_app in H. apply H.
Qed.

Lemma single_spaced_slice (s : js_string) (a b : Z) :
  single_spaced s = true -> single_spaced (slice s a b) = true.
Proof.
  intros H. unfold slice.
  set (from := Z.to_nat (slice_index (len s) a)).
  set (n := Z.to_nat (slice_index (len s) b - slice_index (len s) a)).
  rewrite <- (firstn_skipn from s) in H.
  apply single_spaced_app in H. destruct H as [_ H].
  rewrite <- (firstn_skipn n (skipn from s)) in H.
  apply single_spaced_app in H. apply H.
Qed.

Lemma single_spaced_cleanText (t : js_string) :
  single_spaced (trim (replace_ws t)) = true.
Proof. apply single_spaced_trim. apply (single_spaced_collapse _ false). Qed.

(** The chunks the loop pushes are trimmed, single-spaced and not empty. *)
Lemma chunk_loop_normalized (cleanText : js_string) (chunkSize : Z)
  (fuel : nat) :
  single_spaced cleanText = true ->
  forall start chunks result,
    (forall c, In c chunks ->
               trim c = c /\ single_spaced c = true /\ c <> []) ->
    chunk_loop fuel cleanText chunkSize start chunks = Some result ->
    forall c, In c result -> trim c = c /\ single_spaced c = true /\ c <> [].
Proof.
  intros Hclean. induction fuel as [|fuel IH];
    intros start chunks result Hchunks Hrun; cbn [chunk_loop] in Hrun;
    destruct (start <? len cleanText); try discriminate;
    try (injection Hrun as <-; assumption).
  refine (IH _ _ _ _ Hrun).
  intros c Hc. unfold push_chunk in Hc.
  destruct (0 <? len (trim (slice cleanText start
                              (chunk_end cleanText chunkSize start)))) eqn:E;
    [|apply Hchunks; assumption].
  apply in_app_or in Hc. destruct Hc as [Hc | [<- | []]];
    [apply Hchunks; assumption|].
  split; [|split].
  - apply trim_idempotent.
  - apply single_spaced_trim, single_spaced_slice. assumption.
  - apply Z.ltb_lt in E. intros Hnil. rewrite Hnil in E. cbn in E. lia.
Qed.

(** Every chunk is trimmed and single-spaced: no white space at either end,
    and inside it single space characters only.  This holds for every chunk
    size for which the chunker returns. *)
Theorem chunks_are_normalized (text_ : js_string) (chunkSize : Z)
  (chunks : list js_string) :
  chunkText text_ chunkSize = Some chunks ->
  forall c, In c chunks -> trim c = c /\ single_spaced c = true.
Proof.
  intros Hrun. unfold chunkText in Hrun.
  destruct text_ as [|u rest]; [injection Hrun as <-; contradiction|].
  pose proof (single_spaced_cleanText (u :: rest)) as Hclean.
  destruct (len (trim (replace_ws (u :: rest))) <=? chunkSize).
  - injection Hrun as <-. intros c [<- | []].
    split; [apply trim_idempotent | assumption].
  - intros c Hc.
    destruct (chunk_loop_normalized _ _ _ Hclean 0 [] chunks
                ltac:(intros ? []) Hrun c Hc) as [H1 [H2 _]].
    split; assumption.
Qed.

Lemma chunks_are_normalized_witness :
  chunkText two_sentences 20
  = Some [lit "The sky is blue."; lit "Adama is a city."] /\
  forall c, In c [lit "The sky is blue."; lit "Adama is a city."] ->
            trim c = c /\ single_spaced c = true.
Proof.
  split; [vm_compute; reflexivity|].
  apply (chunks_are_normalized two_sentences 20).
  vm_compute. reflexivity.
Defined.

(** A text with a unit that is not white space gives at least one chunk, and
    no chunk is the empty string. *)
Theorem chunks_are_not_empty (text_ : js_string) (chunkSize : Z)
  (chunks : list js_string) :
  1 <= chunkSize ->
  solid text_ <> [] ->
  chunkText text_ chunkSize = Some chunks ->
  chunks <> [] /\ forall c, In c chunks -> c <> [].
Proof.
  intros Hsize Hsolid Hrun. unfold chunkText in Hrun.
  destruct text_ as [|u rest]; [contradiction|].
  rewrite <- solid_cleanText in Hsolid.
  pose proof (single_spaced_cleanText (u :: rest)) as Hclean.
  destruct (len (trim (replace_ws (u :: rest))) <=? chunkSize).
  - injection Hrun as <-. split; [discriminate|].
    intros c [<- | []] Hnil. rewrite Hnil in Hsolid. contradiction.
  - split.
    + intros ->.
      pose proof (chunk_loop_solid _ _ _ Hsize 0 [] [] ltac:(lia) Hrun)
        as Hkeep.
      cbn [List.concat solid filter app Z.to_nat skipn] in Hkeep.
      symmetry in Hkeep. contradiction.
    + intros c Hc.
      apply (chunk_loop_normalized _ _ _ Hclean 0 [] chunks
               ltac:(intros ? []) Hrun c Hc).
Qed.

Lemma chunks_are_not_empty_witness :
  [lit "The sky is blue."; lit "Adama is a city."] <> [] /\
  forall c, In c [lit "The sky is blue."; lit "Adama is a city."] -> c <> [].
Proof.
  apply (chunks_are_not_empty two_sentences 20);
    [lia | vm_compute; discriminate | vm_compute; reflexivity].
Defined.

Lemma collapse_all_space (s : js_string) :
  forallb is_space s = true ->
  collapse true s = [] /\ (s <> [] -> collapse false s = [space]).
Proof.
  induction s as [|c s IH]; intros H; [split; [reflexivity | contradiction]|].
  cbn [forallb] in H. apply andb_prop in H. destruct H as [Hc Hs].
  destruct (IH Hs) as [IH1 _].
  cbn [collapse]. rewrite Hc, IH1. split; reflexivity.
Qed.

(** A text of white space only, not empty, gives one chunk, the empty
    string: the list of chunks is not empty although there is nothing in
    it. *)
Theorem white_space_text_gives_empty_chunk (text_ : js_string)
  (chunkSize : Z) :
  text_ <> [] -> forallb is_space text_ = true -> 0 <= chunkSize ->
  chunkText text_ chunkSize = Some [[]].
Proof.
  intros Hne Hall Hsize. unfold chunkText.
  destruct text_ as [|u rest]; [contradiction|].
  unfold replace_ws.
  rewrite (proj2 (collapse_all_space _ Hall) Hne).
  replace (trim [space]) with (@nil code_unit) by reflexivity.
  replace (len [] <=? chunkSize) with true
    by (symmetry; apply Z.leb_le; cbn; lia).
  reflexivity.
Qed.

Lemma white_space_text_gives_empty_chunk_witness :
  chunkText [space; 9%N; 10%N] 400 = Some [[]].
Proof.
  apply (white_space_text_gives_empty_chunk [space; 9%N; 10%N] 400);
    [discriminate | reflexivity | lia].
Defined.

(** A text that is already clean (trimmed, single-spaced, not empty) and no
    longer than the chunk size is its own only chunk: chunking a chunk of at
    most [chunkSize] units again gives that chunk back. *)
Theorem clean_text_is_its_own_chunk (text_ : js_string) (chunkSize : Z) :
  text_ <> [] -> trim text_ = text_ -> single_spaced text_ = true ->
  len text_ <= chunkSize ->
  chunkText text_ chunkSize = Some [text_].
Proof.
  intros Hne Htrim Hspaced Hlen. unfold chunkText.
  destruct text_ as [|u rest]; [contradiction|].
  unfold replace_ws.
  rewrite (collapse_fixed _ Hspaced false) by discriminate.
  rewrite Htrim.
  replace (len (u :: rest) <=? chunkSize) with true
    by (symmetry; apply Z.leb_le; assumption).
  reflexivity.
Qed.

Lemma clean_text_is_its_own_chunk_witness :
  chunkText (lit "Adama is a city.") 20 = Some [lit "Adama is a city."].
Proof.
  apply (clean_text_is_its_own_chunk (lit "Adama is a city.") 20);
    [discriminate | reflexivity | reflexivity | vm_compute; discriminate].
Defined.

(** ** The chunker: how many chunks *)

(** Every cut lies more than 0.6 x [chunkSize] after the start of its
    chunk. *)
Lemma chunk_end_far_enough (cleanText : js_string) (chunkSize start : Z) :
  1 <= chunkSize ->
  3 * chunkSize < 5 * (chunk_end cleanText chunkSize start - start).
Proof.
  intros Hsize. unfold chunk_end, past_threshold. cbv zeta.
  destruct (start + chunkSize <? len cleanText); [|lia].
  destruct (3 * chunkSize <? 5 * (lastIndexOf cleanText period
                                    (start + chunkSize) - start)) eqn:E;
    [|lia].
  apply Z.ltb_lt in E. lia.
Qed.

Lemma push_chunk_length (chunks : list js_string) (chunk : js_string) :
  (List.length (push_chunk chunks chunk) <= S (List.length chunks))%nat.
Proof.
  unfold push_chunk. destruct (0 <? len chunk); [|lia].
  rewrite length_app. cbn. lia.
Qed.

Lemma chunk_loop_count (cleanText : js_string) (chunkSize : Z) (fuel : nat) :
  1 <= chunkSize ->
  forall start chunks result,
    0 <= start ->
    chunk_loop fuel cleanText chunkSize start chunks = Some result ->
    (start < len cleanText ->
     3 * chunkSize * (Z.of_nat (List.length result)
                      - Z.of_nat (List.length chunks) - 1)
     < 5 * (len cleanText - start)) /\
    (len cleanText <= start -> result = chunks).
Proof.
  intros Hsize. induction fuel as [|fuel IH];
    intros start chunks result Hstart Hrun; cbn [chunk_loop] in Hrun;
    destruct (start <? len cleanText) eqn:E; try discriminate;
    try (apply Z.ltb_ge in E; injection Hrun as <-;
         split; [lia | reflexivity]).
  apply Z.ltb_lt in E. split; [intros _ | lia].
  pose proof (chunk_end_far_enough cleanText chunkSize start Hsize) as Hfar.
  set (end_ := chunk_end cleanText chunkSize start) in *.
  set (chunks' := push_chunk chunks (trim (slice cleanText start end_))) in *.
  pose proof (push_chunk_length chunks (trim (slice cleanText start end_)))
    as Hpush. fold chunks' in Hpush.
  destruct (IH end_ chunks' result ltac:(lia) Hrun) as [Hmore Hdone].
  destruct (Z.lt_ge_cases end_ (len cleanText)) as [Hin | Hout].
  - specialize (Hmore Hin). nia.
  - rewrite (Hdone Hout). nia.
Qed.

(** The number [n] of chunks is bounded by the length of the cleaned text:
    all chunks but the last take more than 0.6 x [chunkSize] units each, so
    [0.6 * chunkSize * (n - 1) <= len], written without the division. *)
Theorem chunk_count_bound (text_ : js_string) (chunkSize : Z)
  (chunks : list js_string) :
  1 <= chunkSize ->
  chunkText text_ chunkSize = Some chunks ->
  3 * chunkSize * (Z.of_nat (List.length chunks) - 1)
  <= 5 * len (trim (replace_ws text_)).
Proof.
  intros Hsize Hrun. unfold chunkText in Hrun.
  destruct text_ as [|u rest].
  - injection Hrun as <-.
    change (len (trim (replace_ws []))) with 0. cbn [List.length]. lia.
  - set (cleanText := trim (replace_ws (u :: rest))) in *.
    assert (0 <= len cleanText) by (unfold len; lia).
    destruct (len cleanText <=? chunkSize) eqn:E.
    + injection Hrun as <-. cbn [List.length]. lia.
    + apply Z.leb_gt in E.
      destruct (chunk_loop_count _ _ _ Hsize 0 [] chunks ltac:(lia) Hrun)
        as [Hcount _].
      specialize (Hcount ltac:(lia)). cbn [List.length] in Hcount. lia.
Qed.

Lemma chunk_count_bound_witness :
  3 * 20 * (Z.of_nat (List.length
                        [lit "The sky is blue."; lit "Adama is a city."]) - 1)
  <= 5 * len (trim (replace_ws two_sentences)).
Proof.
  apply (chunk_count_bound two_sentences 20); [lia|].
  vm_compute. reflexivity.
Defined.

(** With [chunkSize = 0] and a text that is not white space only, the loop
    never ends: no number of iterations is enough. *)
Theorem zero_chunkSize_never_returns (text_ : js_string) :
  solid text_ <> [] ->
  chunkText text_ 0 = None /\
  forall fuel, chunk_loop fuel (trim (replace_ws text_)) 0 0 [] = None.
Proof.
  intros Hsolid.
  assert (Hlen : 0 < len (trim (replace_ws text_))).
  { destruct (trim (replace_ws text_)) eqn:Ec.
    - rewrite <- solid_cleanText, Ec in Hsolid. contradiction.
    - unfold len. cbn [List.length]. lia. }
  split.
  - unfold chunkText. destruct text_ as [|u rest]; [contradiction|].
    replace (len (trim (replace_ws (u :: rest))) <=? 0) with false
      by (symmetry; apply Z.leb_gt; assumption).
    apply chunk_loop_zero_size_runs_forever. lia.
  - intros fuel. apply chunk_loop_zero_size_runs_forever. lia.
Qed.

Lemma zero_chunkSize_never_returns_witness :
  chunkText (lit "sky") 0 = None /\
  forall fuel, chunk_loop fuel (trim (replace_ws (lit "sky"))) 0 0 [] = None.
Proof.
  apply (zero_chunkSize_never_returns (lit "sky")). vm_compute. discriminate.
Defined.

(** ** The [/query] handler: where the answer comes from *)

Local Open Scope float_scope.

(** A score above the medium threshold is not the literal [0] of the early
    returns: it comes from two present vectors of one length, which is not
    zero. *)
Lemma score_above_medium_shape (vecA vecB : option vector) :
  (medium_threshold <? cosineSimilarity vecA vecB) = true ->
  exists a b, vecA = Some a /\ vecB = Some b /\
              List.length a = List.length b /\ a <> [].
Proof.
  assert (Hzero : (medium_threshold <? 0) = false) by (vm_compute; reflexivity).
  unfold cosineSimilarity.
  destruct vecA as [a|], vecB as [b|]; try congruence.
  destruct (Nat.eqb (List.length a) (List.length b)) eqn:Hlen;
    cbn [negb]; [|congruence].
  apply Nat.eqb_eq in Hlen. intros H.
  exists a, b. split; [reflexivity|]. split; [reflexivity|].
  split; [assumption|].
  intros ->. cbv zeta in H.
  replace (magnitude [] =? 0) with true in H by (vm_compute; reflexivity).
  cbn [orb] in H. congruence.
Qed.

(** The reply over a non-empty collection, from the first chunk of the
    sorted array. *)
Lemma rank_and_answer_best (queryEmbedding : option vector) (allDocs : store)
  (best : ScoredDoc) (rest : list ScoredDoc) :
  sort by_score (map (score_doc queryEmbedding) allDocs) = best :: rest ->
  rank_and_answer queryEmbedding allDocs
  = let (answer, confidence) := select_answer [best] in
    QueryOk answer (Math_round (confidence * 100)).
Proof.
  intros Hsort. unfold rank_and_answer.
  destruct allDocs as [|c0 more]; [discriminate|].
  cbv zeta. rewrite Hsort. reflexivity.
Qed.

(** When no stored chunk has a vector of the query's length (chunks without
    an embedding included), the reply over a non-empty collection is the
    refusal with confidence 0. *)
Theorem no_usable_embedding_refusal (queryEmbedding : option vector)
  (allDocs : store) :
  allDocs <> [] ->
  (forall c, In c allDocs ->
     match queryEmbedding, embedding c with
     | Some q, Some v => List.length v <> List.length q
     | _, _ => True
     end) ->
  rank_and_answer queryEmbedding allDocs = QueryOk refusal_answer 0.
Proof.
  intros Hne Hnone.
  destruct (best_match_exists queryEmbedding allDocs Hne)
    as [best [rest [Hsort [Hin Hbest]]]].
  rewrite (rank_and_answer_best _ _ _ _ Hsort). cbn [select_answer].
  assert (Hlow : (medium_threshold <? score best) = false).
  { apply not_true_is_false. intros Habove.
    rewrite Hbest in Habove. cbn [score score_doc] in Habove.
    destruct (score_above_medium_shape _ _ Habove)
      as [a [b [Hq [Hb [Hlen Ha]]]]].
    specialize (Hnone _ Hin). rewrite Hq in Hnone.
    unfold embedding_or_empty in Hb.
    destruct (embedding (doc best)) as [v|].
    - injection Hb as ->. congruence.
    - injection Hb as <-. destruct a; [contradiction | discriminate]. }
  assert (Hhigh : (high_threshold <? score best) = false).
  { apply not_true_is_false. intros Habove.
    apply FloatFacts.high_above_medium in Habove. congruence. }
  rewrite Hhigh, Hlow, round_zero_confidence. reflexivity.
Qed.

Lemma no_usable_embedding_refusal_witness :
  rank_and_answer on_axis_query
    [sample_chunk "a" "no vector" None;
     sample_chunk "b" "short vector" (Some [1])]
  = QueryOk refusal_answer 0.
Proof.
  apply no_usable_embedding_refusal; [discriminate|].
  intros c [<- | [<- | []]]; cbn; [exact I | discriminate].
Defined.

(** Where the answer of a reply comes from: a fixed message, or the text of
    a stored chunk that has an embedding of the query's length and a score
    above the medium threshold, alone or behind the hedging prefix; the
    confidence is then the rounded percentage of that chunk's score. *)
Theorem answer_comes_from_store (queryEmbedding : option vector)
  (allDocs : store) :
  exists answer confidence,
    rank_and_answer queryEmbedding allDocs = QueryOk answer confidence /\
    ((allDocs = [] /\ answer = no_documents_answer /\ confidence = 0) \/
     (allDocs <> [] /\ answer = refusal_answer /\ confidence = 0) \/
     (exists c q v,
         In c allDocs /\
         queryEmbedding = Some q /\ embedding c = Some v /\
         List.length v = List.length q /\
         (medium_threshold <? cosineSimilarity (Some q) (Some v)) = true /\
         (answer = text c \/ answer = hedge_prefix ++ text c) /\
         confidence = Math_round (cosineSimilarity (Some q) (Some v) * 100))).
Proof.
  destruct allDocs as [|c0 more] eqn:Hdocs.
  { exists no_documents_answer, 0. split; [reflexivity|]. left.
    repeat split. }
  rewrite <- Hdocs.
  assert (Hne : allDocs <> []) by (rewrite Hdocs; discriminate).
  destruct (best_match_exists queryEmbedding allDocs Hne)
    as [best [rest [Hsort [Hin Hbest]]]].
  rewrite (rank_and_answer_best _ _ _ _ Hsort). cbn [select_answer].
  assert (Hshape :
            (medium_threshold <? score best) = true ->
            exists q v,
              queryEmbedding = Some q /\ embedding (doc best) = Some v /\
              List.length v = List.length q /\
              score best = cosineSimilarity (Some q) (Some v)).
  { intros Habove. rewrite Hbest in Habove.
    cbn [score score_doc] in Habove.
    destruct (score_above_medium_shape _ _ Habove)
      as [a [b [Hq [Hb [Hlen Ha]]]]].
    unfold embedding_or_empty in Hb.
    destruct (embedding (doc best)) as [v|] eqn:Hemb.
    - injection Hb as ->. exists a, b.
      split; [assumption|]. split; [reflexivity|]. split; [congruence|].
      rewrite Hbest. cbn [score score_doc]. unfold embedding_or_empty.
      rewrite Hemb, Hq. reflexivity.
    - injection Hb as <-. destruct a; [contradiction | discriminate]. }
  destruct (high_threshold <? score best) eqn:Hhigh.
  - pose proof (FloatFacts.high_above_medium _ Hhigh) as Hmedium.
    destruct (Hshape Hmedium) as [q [v [Hq [Hv [Hlen Hscore]]]]].
    eexists. eexists. split; [reflexivity|]. right. right.
    exists (doc best), q, v. rewrite <- Hscore.
    repeat (split; [assumption|]). split; [left; reflexivity | reflexivity].
  - destruct (medium_threshold <? score best) eqn:Hmedium.
    + destruct (Hshape eq_refl) as [q [v [Hq [Hv [Hlen Hscore]]]]].
      eexists. eexists. split; [reflexivity|]. right. right.
      exists (doc best), q, v. rewrite <- Hscore.
      repeat (split; [assumption|]).
      split; [right; reflexivity | reflexivity].
    + eexists. eexists. split; [reflexivity|]. right. left.
      split; [assumption|]. split; [reflexivity|].
      apply round_zero_confidence.
Qed.

(** ** The [/query] handler: ties, and what the answer depends on *)

(** The first chunk of the sorted array stood in the array behind chunks of
    a strictly smaller score only, and before chunks of at most its score. *)
Lemma sort_head_is_first_best (l : list ScoredDoc) :
  (forall d, In d l -> is_nan (score d) = false) ->
  forall best rest,
    sort by_score l = best :: rest ->
    exists before after,
      l = before ++ best :: after /\
      (forall d, In d before -> (score d <? score best) = true) /\
      (forall d, In d after -> (score d <=? score best) = true).
Proof.
  induction l as [|x l IH]; intros Hnum best rest Hsort; [discriminate|].
  assert (Hx : is_nan (score x) = false) by (apply Hnum; left; reflexivity).
  assert (Hl : forall d, In d l -> is_nan (score d) = false)
    by (intros d' Hd'; apply Hnum; right; assumption).
  unfold sort in Hsort. cbn [fold_right] in Hsort.
  fold (sort by_score l) in Hsort.
  destruct (sort by_score l) as [|h t] eqn:Hl_sorted.
  - assert (l = []).
    { apply (f_equal (@List.length _)) in Hl_sorted.
      rewrite sort_length in Hl_sorted.
      destruct l; [reflexivity | discriminate]. }
    subst l. cbn [insert_sorted] in Hsort. injection Hsort as <- <-.
    exists [], []. split; [reflexivity|]. split; intros d [].
  - assert (Hh_in : In h l)
      by (apply (sort_In by_score); rewrite Hl_sorted; left; reflexivity).
    assert (Hh : is_nan (score h) = false) by (apply Hl; assumption).
    destruct (IH Hl h t eq_refl) as [before [after [Hsplit [Hb Ha]]]].
    cbn [insert_sorted] in Hsort. unfold by_score at 1 in Hsort.
    rewrite (sub_positive (score x) (score h) Hx Hh) in Hsort.
    destruct (score x <? score h) eqn:Hcmp; injection Hsort as <- <-.
    + exists (x :: before), after. split; [rewrite Hsplit; reflexivity|].
      split; [|assumption].
      intros d [<- | Hd]; [assumption | apply Hb; assumption].
    + exists [], l. split; [reflexivity|]. split; [intros d []|].
      intros d Hd.
      rewrite (ltb_scaled _ _ Hx Hh) in Hcmp. apply Z.ltb_ge in Hcmp.
      rewrite (leb_scaled _ _ (Hl d Hd) Hx). apply Z.leb_le.
      rewrite Hsplit in Hd. apply in_app_or in Hd.
      destruct Hd as [Hd | [<- | Hd]].
      * assert (Hdl : In d l)
          by (rewrite Hsplit; apply in_or_app; left; assumption).
        specialize (Hb d Hd).
        rewrite (ltb_scaled _ _ (Hl d Hdl) Hh) in Hb.
        apply Z.ltb_lt in Hb. lia.
      * assumption.
      * assert (Hdl : In d l)
          by (rewrite Hsplit; apply in_or_app; right; right; assumption).
        specialize (Ha d Hd).
        rewrite (leb_scaled _ _ (Hl d Hdl) Hh) in Ha.
        apply Z.leb_le in Ha. lia.
Qed.

(** Among the chunks of the best score the one scanned first is the best
    match: every chunk before it in the collection scores strictly less, and
    no chunk after it scores more (no score being [NaN]). *)
Theorem best_match_breaks_ties_by_scan_order (queryEmbedding : option vector)
  (allDocs : store) (best : ScoredDoc) (rest : list ScoredDoc) :
  (forall c, In c allDocs ->
     is_nan (cosineSimilarity queryEmbedding (embedding_or_empty c)) = false) ->
  sort by_score (map (score_doc queryEmbedding) allDocs) = best :: rest ->
  exists before after,
    allDocs = before ++ doc best :: after /\
    (forall c, In c before ->
       (cosineSimilarity queryEmbedding (embedding_or_empty c) <? score best)
       = true) /\
    (forall c, In c after ->
       (cosineSimilarity queryEmbedding (embedding_or_empty c) <=? score best)
       = true).
Proof.
  intros Hnum Hsort.
  destruct (sort_head_is_first_best (map (score_doc queryEmbedding) allDocs))
    with (best := best) (rest := rest)
    as [before [after [Hsplit [Hb Ha]]]]; [|assumption|].
  { intros d Hd. apply in_map_iff in Hd. destruct Hd as [c [<- Hc]].
    apply Hnum. assumption. }
  apply map_eq_app in Hsplit.
  destruct Hsplit as [before' [tail [Hdocs [Hbefore Htail]]]].
  destruct tail as [|c0 after']; [discriminate|].
  cbn [map] in Htail. injection Htail as Hc0 Hafter.
  exists before', after'. split; [|split].
  - rewrite Hdocs, <- Hc0. reflexivity.
  - intros c Hc.
    apply (Hb (score_doc queryEmbedding c)).
    rewrite <- Hbefore. apply in_map. assumption.
  - intros c Hc.
    apply (Ha (score_doc queryEmbedding c)).
    rewrite <- Hafter. apply in_map. assumption.
Qed.

(** [chunk_b] and [chunk_c] both score 1 against the query; [chunk_b], which
    is scanned first, is the best match. *)
Lemma best_match_breaks_ties_by_scan_order_witness :
  exists before after,
    tied_chunks = before ++ doc (score_doc on_axis_query chunk_b) :: after /\
    (forall c, In c before ->
       (cosineSimilarity on_axis_query (embedding_or_empty c)
        <? score (score_doc on_axis_query chunk_b)) = true) /\
    (forall c, In c after ->
       (cosineSimilarity on_axis_query (embedding_or_empty c)
        <=? score (score_doc on_axis_query chunk_b)) = true).
Proof.
  apply (best_match_breaks_ties_by_scan_order on_axis_query tied_chunks
           (score_doc on_axis_query chunk_b)
           [score_doc on_axis_query chunk_c; score_doc on_axis_query chunk_a]).
  - intros c [<- | [<- | [<- | []]]]; vm_compute; reflexivity.
  - vm_compute. reflexivity.
Defined.

Lemma insert_sorted_same (x y : ScoredDoc) (l1 l2 : list ScoredDoc) :
  same_scored x y -> Forall2 same_scored l1 l2 ->
  Forall2 same_scored (insert_sorted by_score x l1)
                      (insert_sorted by_score y l2).
Proof.
  intros Hxy H. induction H as [|a b l1 l2 Hab H IH]; cbn [insert_sorted].
  - constructor; [assumption | constructor].
  - unfold by_score at 1 3.
    replace (score a - score x) with (score b - score y)
      by (destruct Hxy as [_ ->], Hab as [_ ->]; reflexivity).
    destruct (0 <? score b - score y); constructor; try assumption.
    constructor; assumption.
Qed.

Lemma sort_same (l1 l2 : list ScoredDoc) :
  Forall2 same_scored l1 l2 ->
  Forall2 same_scored (sort by_score l1) (sort by_score l2).
Proof.
  intros H. unfold sort. induction H; cbn [fold_right];
    [constructor | apply insert_sorted_same; assumption].
Qed.

(** The reply depends on the texts and the embeddings of the records, in
    scan order, and on nothing else that is stored: not on [docId],
    [chunkIndex], [metadata] or [createdAt]. *)
Theorem answer_depends_on_text_and_embedding (queryEmbedding : option vector)
  (st1 st2 : store) :
  Forall2 same_view st1 st2 ->
  rank_and_answer queryEmbedding st1 = rank_and_answer queryEmbedding st2.
Proof.
  intros H.
  assert (Hscored : Forall2 same_scored
                      (sort by_score (map (score_doc queryEmbedding) st1))
                      (sort by_score (map (score_doc queryEmbedding) st2))).
  { apply sort_same. induction H as [|c1 c2 st1 st2 [Ht He] H IH];
      cbn [map]; constructor; [|assumption].
    split; [exact Ht|]. cbn [score score_doc].
    unfold embedding_or_empty. rewrite He. reflexivity. }
  unfold rank_and_answer.
  destruct H as [|c1 c2 st1 st2 Hc H]; [reflexivity|]. cbv zeta.
  destruct Hscored as [|a b s1 s2 [Ht Hs] _]; [reflexivity|].
  cbn [firstn select_answer]. rewrite Ht, Hs. reflexivity.
Qed.

Lemma answer_depends_on_text_and_embedding_witness :
  rank_and_answer on_axis_query tied_chunks
  = rank_and_answer on_axis_query (relabelled tied_chunks).
Proof.
  apply answer_depends_on_text_and_embedding.
  repeat constructor.
Defined.

Local Open Scope Z_scope.

(** ** The [/ingest] handler, all outcomes *)

(** With a positive chunk size the chunker returns. *)
Lemma chunkText_returns (text_ : js_string) (chunkSize : Z) :
  1 <= chunkSize -> exists chunks, chunkText text_ chunkSize = Some chunks.
Proof.
  intros Hsize. unfold chunkText. destruct text_ as [|u rest];
    [eexists; reflexivity|].
  destruct (len (trim (replace_ws (u :: rest))) <=? chunkSize);
    [eexists; reflexivity|].
  apply chunk_loop_enough_fuel; [assumption | unfold len; lia].
Qed.


(** The handler always replies. *)
Theorem ingest_always_replies (w : World) (id text_ : js_string)
  (md : IngestMetadata) (st : store) :
  exists r st', ingest w id text_ md st = Some (r, st').
Proof.
  unfold ingest.
  destruct id as [|i0 id]; [destruct text_; eexists; eexists; reflexivity|].
  destruct text_ as [|t0 text_]; [eexists; eexists; reflexivity|].
  destruct (chunkText_returns (t0 :: text_) default_chunkSize)
    as [chunks ->]; [unfold default_chunkSize; lia|].
  destruct chunks as [|ch chunks]; [eexists; eexists; reflexivity|].
  destruct (getEmbeddings w (ch :: chunks));
    [|eexists; eexists; reflexivity].
  destruct (throws w Connect); [eexists; eexists; reflexivity|].
  destruct (throws w DeleteMany); [eexists; eexists; reflexivity|].
  destruct (throws w InsertMany); eexists; eexists; reflexivity.
Qed.

(** The store after a request that was not answered with success: as it
    was, or without the records of the document when [insertMany] threw. *)
Lemma ingest_error_store (w : World) (id text_ : js_string)
  (md : IngestMetadata) (st st' : store) (r : response) :
  ingest w id text_ md st = Some (r, st') ->
  success r = false ->
  st' = st \/ (throws w InsertMany = true /\ st' = deleteMany id st).
Proof.
  intros H Hr. unfold ingest in H.
  destruct id as [|i0 id];
    [destruct text_; injection H as <- <-; left; reflexivity|].
  destruct text_ as [|t0 text_]; [injection H as <- <-; left; reflexivity|].
  destruct (chunkText (t0 :: text_) default_chunkSize) as [[|ch chunks]|];
    [injection H as <- <-; left; reflexivity | | discriminate].
  destruct (getEmbeddings w (ch :: chunks));
    [|injection H as <- <-; left; reflexivity].
  destruct (throws w Connect); [injection H as <- <-; left; reflexivity|].
  destruct (throws w DeleteMany); [injection H as <- <-; left; reflexivity|].
  destruct (throws w InsertMany) eqn:Hins.
  - injection H as <- <-. right. split; reflexivity.
  - injection H as <- <-. discriminate.
Qed.





(** Whatever the reply, the records of the other documents are as they were,
    in their order. *)
Theorem ingest_leaves_other_documents (w : World) (id text_ : js_string)
  (md : IngestMetadata) (st st' : store) (r : response) :
  ingest w id text_ md st = Some (r, st') ->
  forall other, other <> id -> chunks_of other st' = chunks_of other st.
Proof.
  intros H other Hother.
  destruct (success r) eqn:Hr.
  - destruct r as [id' n|a c|a c|e|]; try discriminate.
    + destruct (ingest_replaces _ _ _ _ _ _ _ _ H)
        as [_ [_ [_ [_ [_ [_ [_ Hothers]]]]]]].
      apply Hothers. assumption.
    + exfalso. unfold ingest in H.
      destruct id as [|i0 id]; [destruct text_; discriminate|].
      destruct text_ as [|t0 text_]; [discriminate|].
      destruct (chunkText (t0 :: text_) default_chunkSize)
        as [[|ch chunks]|]; try discriminate.
      destruct (getEmbeddings w (ch :: chunks)); [|discriminate].
      destruct (throws w Connect); [discriminate|].
      destruct (throws w DeleteMany); [discriminate|].
      destruct (throws w InsertMany); discriminate.
    + exfalso. unfold ingest in H.
      destruct id as [|i0 id]; [destruct text_; discriminate|].
      destruct text_ as [|t0 text_]; [discriminate|].
      destruct (chunkText (t0 :: text_) default_chunkSize)
        as [[|ch chunks]|]; try discriminate.
      destruct (getEmbeddings w (ch :: chunks)); [|discriminate].
      destruct (throws w Connect); [discriminate|].
      destruct (throws w DeleteMany); [discriminate|].
      destruct (throws w InsertMany); discriminate.
  - destruct (ingest_error_store _ _ _ _ _ _ _ H Hr) as [-> | [_ ->]];
      [reflexivity|].
    apply chunks_of_deleteMany_other. assumption.
Qed.

Lemma ingest_leaves_other_documents_witness :
  ingest (calm_world [1%float]) (lit "d1") (lit "The sky is blue.")
    no_metadata first_version
  = Some (IngestOk (lit "d1") 1, second_version) /\
  forall other, other <> lit "d1" ->
    chunks_of other second_version = chunks_of other first_version.
Proof.
  split; [vm_compute; reflexivity|].
  apply (ingest_leaves_other_documents (calm_world [1%float]) (lit "d1")
           (lit "The sky is blue.") no_metadata first_version second_version
           (IngestOk (lit "d1") 1)).
  vm_compute. reflexivity.
Defined.

Lemma deleteMany_length (id : js_string) (st : store) :
  (List.length (deleteMany id st) + List.length (chunks_of id st)
   = List.length st)%nat.
Proof.
  unfold deleteMany, chunks_of. induction st as [|c st IH]; [reflexivity|].
  cbn [filter]. destruct (str_eqb (docId c) id); cbn [negb List.length]; lia.
Qed.

(** The size of the collection after a successful ingestion: the old records
    of the document are gone, the new ones are there. *)
Theorem ingest_count (w : World) (id text_ : js_string)
  (md : IngestMetadata) (st st' : store) (id' : js_string) (n : Z) :
  ingest w id text_ md st = Some (IngestOk id' n, st') ->
  countDocuments st'
  = countDocuments st - countDocuments (chunks_of id st) + n.
Proof.
  intros H.
  destruct (ingest_ok_inv _ _ _ _ _ _ _ _ H)
    as [chunks [embeddings [_ [_ [_ [-> [-> _]]]]]]].
  unfold countDocuments, insertMany, ingest_documents.
  rewrite length_app, map_index_length.
  pose proof (deleteMany_length id st). lia.
Qed.

Lemma ingest_count_witness :
  countDocuments second_version
  = countDocuments first_version
    - countDocuments (chunks_of (lit "d1") first_version) + 1.
Proof.
  apply (ingest_count (calm_world [1%float]) (lit "d1")
           (lit "The sky is blue.") no_metadata first_version second_version
           (lit "d1") 1).
  vm_compute. reflexivity.
Defined.

(** Sending a successful request again, with the same reply of the provider
    and the same clock, succeeds again and leaves every document with the
    records it had. *)
Theorem ingest_twice_same_records (w : World) (id text_ : js_string)
  (md : IngestMetadata) (st st1 : store) (id' : js_string) (n : Z) :
  ingest w id text_ md st = Some (IngestOk id' n, st1) ->
  exists st2,
    ingest w id text_ md st1 = Some (IngestOk id' n, st2) /\
    forall any, chunks_of any st2 = chunks_of any st1.
Proof.
  intros H.
  destruct (ingest_replaces _ _ _ _ _ _ _ _ H)
    as [chunks [embeddings [Hchunks [Hne [Hemb [Hn [Hrecords _]]]]]]].
  destruct (ingest_ok_inv _ _ _ _ _ _ _ _ H)
    as [_ [_ [_ [_ [_ [_ [_ Hid]]]]]]].
  assert (Hagain : ingest w id text_ md st1
                   = Some (IngestOk id' n,
                           insertMany
                             (ingest_documents w id md chunks embeddings)
                             (deleteMany id st1))).
  { unfold ingest in *.
    destruct id as [|i0 id]; [destruct text_; discriminate|].
    destruct text_ as [|t0 text_]; [discriminate|].
    rewrite Hchunks in *. destruct chunks as [|ch chunks]; [contradiction|].
    rewrite Hemb in *.
    destruct (throws w Connect); [discriminate|].
    destruct (throws w DeleteMany); [discriminate|].
    destruct (throws w InsertMany); [discriminate|].
    rewrite Hid, Hn. reflexivity. }
  eexists. split; [exact Hagain|].
  destruct (ingest_replaces _ _ _ _ _ _ _ _ Hagain)
    as [chunks' [embeddings' [Hchunks' [_ [Hemb' [_ [Hrecords' Hothers]]]]]]].
  intros any. destruct (list_eq_dec N.eq_dec any id) as [-> | Hother].
  - rewrite Hrecords', Hrecords. congruence.
  - apply Hothers. assumption.
Qed.

Lemma ingest_twice_same_records_witness :
  exists st2,
    ingest (calm_world [1%float]) (lit "d1") (lit "The sky is blue.")
      no_metadata second_version
    = Some (IngestOk (lit "d1") 1, st2) /\
    forall any, chunks_of any st2 = chunks_of any second_version.
Proof.
  apply (ingest_twice_same_records (calm_world [1%float]) (lit "d1")
           (lit "The sky is blue.") no_metadata first_version second_version
           (lit "d1") 1).
  vm_compute. reflexivity.
Defined.

(** The invariant of document [d1] after its second ingestion. *)
Lemma ingest_establishes_invariant_witness :
  document_invariant (lit "d1") second_version.
Proof.
  apply (ingest_establishes_invariant (calm_world [1%float]) (lit "d1")
           (lit "The sky is blue.") no_metadata first_version second_version
           (lit "d1") 1).
  vm_compute. reflexivity.
Defined.

(** ** The [/load-my-data] handler, all outcomes *)

Lemma load_documents_records (w : World) (d : SeedDoc)
  (chunks : list js_string) (embeddings : list vector) :
  forall c, In c (load_documents w d chunks embeddings) ->
    docId c = seed_docId d /\ In (text c) chunks /\
    title (metadata c) = seed_title d /\
    category (metadata c) = seed_category d /\
    totalChunks (metadata c) = None.
Proof.
  intros c Hin. unfold load_documents in Hin.
  apply map_index_In in Hin. destruct Hin as [x [k [Hx [_ ->]]]].
  cbn. repeat split. assumption.
Qed.

(** The loop only adds records of the seeds it is given. *)
Lemma load_loop_records (w : World) (docs : list SeedDoc) :
  forall st total r st',
    load_loop w docs st total = Some (r, st') ->
    forall c, In c st' ->
      In c st \/
      exists d, In d docs /\ docId c = seed_docId d /\
                title (metadata c) = seed_title d /\
                category (metadata c) = seed_category d /\
                totalChunks (metadata c) = None.
Proof.
  induction docs as [|d docs IH]; intros st total r st' Hrun c Hc;
    cbn [load_loop] in Hrun.
  - injection Hrun as <- <-. left. assumption.
  - destruct (chunkText (seed_text d) default_chunkSize)
      as [[|ch chunks]|]; [| |discriminate].
    + destruct (IH _ _ _ _ Hrun c Hc) as [Hold | [d' [Hd' Hrec]]];
        [left; assumption|].
      right. exists d'. split; [right; assumption | assumption].
    + destruct (getEmbeddings w (ch :: chunks)) as [embeddings|];
        [|injection Hrun as <- <-; left; assumption].
      destruct (throws w InsertMany);
        [injection Hrun as <- <-; left; assumption|].
      destruct (IH _ _ _ _ Hrun c Hc) as [Hold | [d' [Hd' Hrec]]].
      * unfold insertMany in Hold. apply in_app_or in Hold.
        destruct Hold as [Hold | Hnew]; [left; assumption|].
        right. exists d. split; [left; reflexivity|].
        destruct (load_documents_records _ _ _ _ c Hnew)
          as [H1 [_ [H2 [H3 H4]]]].
        repeat split; assumption.
      * right. exists d'. split; [right; assumption | assumption].
Qed.

(** Once the handler is past its [deleteMany({})], the collection holds
    records of the seed documents only, whatever the reply: what was stored
    before is gone, also when the reply is an error. *)
Theorem load_my_data_discards_previous (w : World) (st st' : store)
  (r : response) :
  throws w Connect = false -> throws w DeleteMany = false ->
  load_my_data w st = Some (r, st') ->
  (forall c, In c st' ->
     In (docId c) seed_ids /\ totalChunks (metadata c) = None) /\
  (forall id, ~ In id seed_ids -> chunks_of id st' = []).
Proof.
  intros Hconnect Hdelete Hrun. unfold load_my_data in Hrun.
  rewrite Hconnect, Hdelete in Hrun.
  assert (Hrecords : forall c, In c st' ->
            In (docId c) seed_ids /\ totalChunks (metadata c) = None).
  { intros c Hc.
    destruct (load_loop_records _ _ _ _ _ _ Hrun c Hc)
      as [[] | [d [Hd [Hid [_ [_ Htotal]]]]]].
    split; [|assumption].
    rewrite Hid. unfold seed_ids. apply in_map. assumption. }
  split; [assumption|].
  intros id Hid. apply chunks_of_none.
  intros c Hc Heq. apply Hid. rewrite <- Heq. apply Hrecords. assumption.
Qed.

(** With a provider that fails the reply is a 500 and the two records of
    [d1] are gone. *)
Lemma load_my_data_discards_previous_witness :
  load_my_data world_without_provider first_version = Some (ServerError, []) /\
  (forall c, In c [] ->
     In (docId c) seed_ids /\ totalChunks (metadata c) = None) /\
  (forall id, ~ In id seed_ids -> chunks_of id [] = []).
Proof.
  split; [vm_compute; reflexivity|].
  apply (load_my_data_discards_previous world_without_provider first_version
           [] ServerError); vm_compute; reflexivity.
Defined.

(** On seeds whose text is one clean chunk, a run of the loop that ends in
    success has written one record per seed, in order. *)
Lemma load_loop_success (w : World) (docs : list SeedDoc) :
  Forall (fun d => chunkText (seed_text d) default_chunkSize
                   = Some [seed_text d]) docs ->
  forall st total a b st',
    load_loop w docs st total = Some (LoadOk a b, st') ->
    b = total + Z.of_nat (List.length docs) /\
    exists added,
      st' = st ++ added /\
      map docId added = map seed_docId docs /\
      map text added = map seed_text docs /\
      (forall c, In c added -> chunkIndex c = 0).
Proof.
  intros Hone. induction Hone as [|d docs Hd Hdocs IH];
    intros st total a b st' Hrun; cbn [load_loop] in Hrun.
  - injection Hrun as <- <- <-. split; [cbn; lia|].
    exists []. rewrite app_nil_r. repeat split. intros c [].
  - rewrite Hd in Hrun.
    destruct (getEmbeddings w [seed_text d]) as [embeddings|];
      [|discriminate].
    destruct (throws w InsertMany); [discriminate|].
    destruct (IH _ _ _ _ _ Hrun) as [Hb [added [Hst [Hids [Htexts Hidx]]]]].
    split; [cbn [List.length] in *; lia|].
    exists (load_documents w d [seed_text d] embeddings ++ added).
    split; [rewrite Hst; unfold insertMany; symmetry; apply app_assoc|].
    cbn [load_documents map_index app map].
    rewrite Hids, Htexts. split; [reflexivity|]. split; [reflexivity|].
    intros c [<- | Hc]; [reflexivity | apply Hidx; assumption].
Qed.

(** The number of documents a success reply reports is the number of seeds
    in the source, whatever the loop did. *)
Lemma load_loop_documents_added (w : World) (docs : list SeedDoc) :
  forall st total a b st',
    load_loop w docs st total = Some (LoadOk a b, st') ->
    a = Z.of_nat (List.length myData).
Proof.
  induction docs as [|d docs IH]; intros st total a b st' Hrun;
    cbn [load_loop] in Hrun.
  - injection Hrun as <- _ _. reflexivity.
  - destruct (chunkText (seed_text d) default_chunkSize)
      as [[|ch chunks]|]; [| |discriminate].
    + apply (IH _ _ _ _ _ Hrun).
    + destruct (getEmbeddings w (ch :: chunks)); [|discriminate].
      destruct (throws w InsertMany); [discriminate|].
      apply (IH _ _ _ _ _ Hrun).
Qed.

(** Each seed text is one chunk, itself. *)
Lemma myData_one_chunk_each :
  Forall (fun d => chunkText (seed_text d) default_chunkSize
                   = Some [seed_text d]) myData.
Proof. repeat constructor. Qed.

(** A success reply of the handler, in any world and over any collection:
    ten documents and ten chunks are reported, and the collection is one
    record per seed document, in the order of the source, each with the
    seed's text and chunk index 0. *)
Theorem load_my_data_success (w : World) (st st' : store) (a b : Z) :
  load_my_data w st = Some (LoadOk a b, st') ->
  a = 10 /\ b = 10 /\
  map docId st' = map seed_docId myData /\
  map text st' = map seed_text myData /\
  (forall c, In c st' -> chunkIndex c = 0) /\
  countDocuments st' = 10.
Proof.
  intros Hrun. unfold load_my_data in Hrun.
  destruct (throws w Connect); [discriminate|].
  destruct (throws w DeleteMany); [discriminate|].
  assert (Ha : a = 10) by apply (load_loop_documents_added _ _ _ _ _ _ _ Hrun).
  destruct (load_loop_success w myData myData_one_chunk_each _ _ _ _ _ Hrun)
    as [Hb [added [Hst [Hids [Htexts Hidx]]]]].
  cbn [app] in Hst. subst st'.
  split; [assumption|]. split; [rewrite Hb; reflexivity|].
  split; [assumption|]. split; [assumption|]. split; [assumption|].
  unfold countDocuments.
  rewrite <- (length_map docId), Hids, length_map. reflexivity.
Qed.

Lemma load_my_data_success_witness :
  10 = 10 /\ 10 = 10 /\
  map docId (store_after (load_my_data (calm_world [1%float]) first_version))
  = map seed_docId myData /\
  map text (store_after (load_my_data (calm_world [1%float]) first_version))
  = map seed_text myData /\
  (forall c,
      In c (store_after (load_my_data (calm_world [1%float]) first_version)) ->
      chunkIndex c = 0) /\
  countDocuments
    (store_after (load_my_data (calm_world [1%float]) first_version)) = 10.
Proof.
  apply (load_my_data_success (calm_world [1%float]) first_version).
  vm_compute. reflexivity.
Defined.

(** ** Clearing, counting and asking *)

(** After a successful [DELETE /documents], which reports the number of
    records there were, the count is 0, the health report counts 0, and
    every question that gets an answer gets the "no information" answer. *)
Theorem cleared_collection (w : World) (st st' : store) (n : Z) :
  delete_documents w st = (ClearedOk n, st') ->
  n = countDocuments st /\
  (forall w' p c, get_documents w' p st' = CountOk c -> c = 0) /\
  (forall w' p c, health w' p st' = Healthy c -> c = 0) /\
  (forall w' q, success (query w' q st') = true ->
                query w' q st' = QueryOk no_documents_answer 0%float).
Proof.
  unfold delete_documents. intros H.
  destruct (throws w Connect); [discriminate|].
  destruct (throws w DeleteMany); [discriminate|].
  injection H as <- <-.
  split; [reflexivity|]. split; [|split].
  - intros w' p c. unfold get_documents.
    destruct (throws w' Connect); [discriminate|].
    destruct (count_throws p); [discriminate|].
    intros Hc. injection Hc as <-. reflexivity.
  - intros w' p c. unfold health.
    destruct (throws w' Connect); [discriminate|].
    destruct (ping_throws p); [discriminate|].
    destruct (count_throws p); [discriminate|].
    intros Hc. injection Hc as <-. reflexivity.
  - intros w' q. unfold query.
    destruct q; [discriminate|].
    destruct (getEmbeddings w' _); [|intros H; discriminate H].
    destruct (throws w' Connect); [intros H; discriminate H|].
    destruct (throws w' Find); [intros H; discriminate H|].
    reflexivity.
Qed.

Lemma cleared_collection_witness :
  2 = countDocuments first_version /\
  (forall w' p c, get_documents w' p [] = CountOk c -> c = 0) /\
  (forall w' p c, health w' p [] = Healthy c -> c = 0) /\
  (forall w' q, success (query w' q []) = true ->
                query w' q [] = QueryOk no_documents_answer 0%float).
Proof.
  apply (cleared_collection (calm_world [1%float]) first_version [] 2).
  vm_compute. reflexivity.
Defined.
